(** * Parallel mypy driver and metadata store: a shallow embedding

    The development follows the four source files:
    - [mypy-pre.py]   : single-pass greedy batch fill over all files;
    - [mypy_pre2.py]  : [process_layer] (the same fill, sized by the layer)
                        and the accumulation loop over dependency layers;
    - [z.py]          : [chunk_array], the shuffle-and-split scheduling mode;
    - [mypy/metastore.py] : the filesystem and the relational metadata store.

    Python exceptions are values of [exn]; a computation that may raise
    returns [result]. *)

From Stdlib Require Import ZArith NArith QArith Qround List Ascii String Lia.
From stdpp Require Import base gmap sets list strings.

Set Warnings "-clear-no-such-hyp".

Local Open Scope string_scope.
Local Open Scope list_scope.
Local Open Scope nat_scope.

(** ** Exceptions and the error monad *)

Inductive exn : Type :=
  | IndexError
  | ZeroDivisionError
  | ValueError
  | KeyError
  | AssertionError
  | OverflowError
  | OSError
  | FileNotFoundError
  | FileExistsError
  | IsADirectoryError
  | NotADirectoryError.

Inductive result (A : Type) : Type :=
  | Ok (a : A)
  | Raise (e : exn).

Arguments Ok {A} a.
Arguments Raise {A} e.

#[global] Instance result_ret : MRet result := fun A a => Ok a.
#[global] Instance result_bind : MBind result := fun A B k r =>
  match r with
  | Ok a => k a
  | Raise e => Raise e
  end.

(** [l[i]] for a non-negative index: [IndexError] out of range. *)
Definition getitem {A : Type} (l : list A) (i : nat) : result A :=
  match l !! i with
  | Some x => Ok x
  | None => Raise IndexError
  end.

(** [sum(sizes)]. *)
Definition sumN (l : list N) : N := foldr N.add 0%N l.

(** [math.ceil(total / n)]: the quotient rounded up, [ZeroDivisionError]
    when [n] is zero.  Sizes are byte counts, far below the range where the
    float quotient of the source loses integer precision, so the quotient is
    taken exactly. *)
Definition ceil_div (total : N) (n : nat) : result N :=
  if decide (n = 0) then Raise ZeroDivisionError
  else Ok ((total + N.of_nat n - 1) / N.of_nat n)%N.

(** ** The greedy batch fill ([mypy-pre.py] 50-66, [mypy_pre2.py] 44-72) *)

Module Partition.
Section Fill.
(** [os.path.getsize]: the cost of a unit. *)
Variable getsize : string -> N.
(** What the worker pool returns for the submitted commands. *)
Variable R : Type.
Variable run_pool : list (list string) -> R.

(** One entry of [commands]: [[["mypy", path, ...], size]]. *)
Definition command : Type := list string * N.

(** [for _ in range(num_procs): commands.append([["mypy"], 0])] *)
Definition init_commands (num_procs : nat) : list command :=
  replicate num_procs (["mypy"], 0%N).

(** The body of the fill loop for the unit [path]:
<<
    if commands[append_idx][1] >= target_size:
        append_idx += 1
    commands[append_idx][0].append(paths[i])
    commands[append_idx][1] += sizes[i]
>> *)
Definition fill_step (target_size : N) (st : list command * nat)
    (path : string) : result (list command * nat) :=
  let '(commands, append_idx) := st in
  c ← getitem commands append_idx;
  let append_idx :=
    if (target_size <=? c.2)%N then S append_idx else append_idx in
  c ← getitem commands append_idx;
  Ok (<[append_idx := (c.1 ++ [path], (c.2 + getsize path)%N)]> commands,
      append_idx).

(** [for i in range(len(paths)): ...] *)
Fixpoint fill_loop (target_size : N) (st : list command * nat)
    (paths : list string) : result (list command * nat) :=
  match paths with
  | [] => Ok st
  | path :: rest =>
      st' ← fill_step target_size st path;
      fill_loop target_size st' rest
  end.

(** [[cmd[0] for cmd in commands if len(cmd[0]) > 1]] *)
Definition submit_commands (commands : list command) : list (list string) :=
  fst <$> filter (fun cmd : command => (1 < length cmd.1)%nat) commands.

(** The fill as both scripts run it: target, empty commands, loop.
    Returns the final [commands] and [append_idx]. *)
Definition greedy_fill (num_procs : nat) (paths : list string)
    : result (list command * nat) :=
  let sizes := getsize <$> paths in
  target_size ← ceil_div (sumN sizes) num_procs;
  fill_loop target_size (init_commands num_procs, 0) paths.

(** [execute_commands]: a pool of [len(paths_list)] workers; the pool
    constructor rejects a worker count of zero. *)
Definition execute_commands (paths_list : list (list string)) : result R :=
  if decide (length paths_list = 0) then Raise ValueError
  else Ok (run_pool paths_list).

(** [mypy-pre.py]: [num_procs = 8]. *)
Definition pre_num_procs : nat := 8.

Definition pre_fill (res : list string) : result (list command * nat) :=
  greedy_fill pre_num_procs res.

Definition pre_partition (res : list string) : result (list (list string)) :=
  '(commands, _) ← pre_fill res;
  Ok (submit_commands commands).

Definition pre_main (res : list string) : result R :=
  batches ← pre_partition res;
  execute_commands batches.

(** [mypy_pre2.py]: [num_procs = min(16, len(paths))]. *)
Definition layer_num_procs (paths : list string) : nat :=
  min 16 (length paths).

Definition layer_fill (paths : list string) : result (list command * nat) :=
  greedy_fill (layer_num_procs paths) paths.

Definition layer_partition (paths : list string)
    : result (list (list string)) :=
  '(commands, _) ← layer_fill paths;
  Ok (submit_commands commands).

Definition process_layer (layer : list string) : result R :=
  batches ← layer_partition layer;
  execute_commands batches.

(** The quantities the specification speaks of. *)
Definition cost (batch : list string) : N := sumN (getsize <$> batch).
Definition units_of (batch : list string) : list string := tail batch.
Definition max_cost (paths : list string) : N :=
  foldr N.max 0%N (getsize <$> paths).

(** The entry of [commands] that holds the units [units]. *)
Definition mk_command (units : list string) : command :=
  ("mypy" :: units, cost units).

(** The loop invariant, for [n] batches, the units [seen] so far and a
    bound [M] on a unit's cost: [bs] are the units of each batch. *)
Record fill_inv (n : nat) (target M : N) (seen : list string)
    (bs : list (list string)) (idx : nat) : Prop := {
  inv_length : length bs = n;
  inv_idx : (idx < n)%nat;
  inv_seen : concat bs = seen;
  inv_later : ∀ j ps, (idx < j)%nat -> bs !! j = Some ps -> ps = [];
  inv_full : ∀ j ps, (j < idx)%nat -> bs !! j = Some ps -> (target ≤ cost ps)%N;
  inv_bound : ∀ j ps, bs !! j = Some ps -> (cost ps ≤ target + M)%N
}.
End Fill.
End Partition.

(** ** The accumulation loop ([mypy_pre2.py] 97-132) *)

Module Scheduler.
Section Loop.
Variable getsize : string -> N.
Variable R : Type.
Variable run_pool : list (list string) -> R.

(** What the graph provider hands over: the module names of the sources,
    the members of each collapsed node, and each module's file path. *)
Variable modules : gset string.
Variable node_sccs : gmap string (list string).
Variable graph : gmap string string.

(** The loop's variables. *)
Record state : Type := State {
  curr_inters : gset string;
  proc_sets : list (list string);
  result_list : list R
}.

Definition init : state :=
  {| curr_inters := ∅; proc_sets := []; result_list := [] |}.

(** [curr_layer_set.intersection(modules)] for one layer: the members of
    every node of the layer that [node_sccs] knows, kept when they are
    modules of the run. *)
Definition layer_units (layer : list string) : gset string :=
  let curr_layer : gset string := list_to_set layer in
  let curr_layer_set : gset string :=
    ⋃ ((fun node =>
          match node_sccs !! node with
          | Some mods => list_to_set mods
          | None => ∅
          end) <$> elements curr_layer) in
  curr_layer_set ∩ modules.

(** [graph[node].path] *)
Definition node_path (node : string) : result string :=
  match graph !! node with
  | Some path => Ok path
  | None => Raise KeyError
  end.

(** [[graph[node].path for node in curr_inters]] *)
Fixpoint node_paths (nodes : list string) : result (list string) :=
  match nodes with
  | [] => Ok []
  | node :: rest =>
      path ← node_path node;
      paths ← node_paths rest;
      Ok (path :: paths)
  end.

(** One flush: resolve the pending units in the set's iteration order,
    log them, partition and dispatch; the call returns when the pool is
    done, and only then is the pending set cleared. *)
Definition flush (s : state) : result state :=
  curr_nodes_to_process ← node_paths (elements (curr_inters s));
  r ← Partition.process_layer getsize R run_pool curr_nodes_to_process;
  Ok {| curr_inters := ∅;
        proc_sets := proc_sets s ++ [curr_nodes_to_process];
        result_list := result_list s ++ [r] |}.

(** The body of [for i in range(len(layers))]. *)
Definition layer_step (threshold : nat) (s : state) (layer : list string)
    : result state :=
  let s := {| curr_inters := curr_inters s ∪ layer_units layer;
              proc_sets := proc_sets s;
              result_list := result_list s |} in
  if decide (threshold ≤ size (curr_inters s))%nat then flush s else Ok s.

Fixpoint layers_loop (threshold : nat) (s : state)
    (layers : list (list string)) : result state :=
  match layers with
  | [] => Ok s
  | layer :: rest =>
      s' ← layer_step threshold s layer;
      layers_loop threshold s' rest
  end.

(** The loop followed by [if len(curr_inters) > 0: ...]. *)
Definition accumulate (threshold : nat) (layers : list (list string))
    : result state :=
  s ← layers_loop threshold init layers;
  if decide (0 < size (curr_inters s))%nat then flush s else Ok s.

(** The script's threshold. *)
Definition main_loop (layers : list (list string)) : result state :=
  accumulate 16 layers.

(** Reading the log: the entry [paths] of [proc_sets] is the flush of the
    pending set [pending], and the entry [r] of [result_list] is what its
    dispatch returned. *)
Definition resolved (pending : gset string) (paths : list string) : Prop :=
  node_paths (elements pending) = Ok paths.
Definition dispatched (paths : list string) (r : R) : Prop :=
  Partition.process_layer getsize R run_pool paths = Ok r.
End Loop.

Arguments State {R} _ _ _.
Arguments curr_inters {R} _.
Arguments proc_sets {R} _.
Arguments result_list {R} _.

(** The scheduler as the specification words it: pending units are
    accumulated layer by layer; a flush takes the whole pending set when its
    size reaches the threshold, and a last flush takes what remains. *)
Fixpoint spec_flushes (threshold : nat) (pending : gset string)
    (contribs : list (gset string)) : list (gset string) :=
  match contribs with
  | [] => if decide (pending = ∅) then [] else [pending]
  | c :: rest =>
      if decide (threshold ≤ size (pending ∪ c))%nat
      then (pending ∪ c) :: spec_flushes threshold ∅ rest
      else spec_flushes threshold (pending ∪ c) rest
  end.

(** No unit belongs to two of the sets. *)
Fixpoint pairwise_disjoint (Xs : list (gset string)) : Prop :=
  match Xs with
  | [] => True
  | X :: Xs => X ## ⋃ Xs ∧ pairwise_disjoint Xs
  end.
End Scheduler.

(** ** Shuffle and split ([z.py] 20-27) *)

Module Chunk.
Section Chunk.
Context {A : Type}.

(** [x[i], x[j] = x[j], x[i]] *)
Definition swap (x : list A) (i j : nat) : list A :=
  match x !! i, x !! j with
  | Some a, Some b => <[j := a]> (<[i := b]> x)
  | _, _ => x
  end.

(** [random.shuffle]: for [i] from [len(x) - 1] down to [1], exchange
    [x[i]] with [x[j]] for a random [j] in [0 .. i].  The generator is the
    list [draws] of its raw outputs, reduced into range. *)
Fixpoint shuffle_from (i : nat) (draws : list nat) (x : list A) : list A :=
  match i with
  | 0 => x
  | S i' =>
      let j := hd 0 draws `mod` S i in
      shuffle_from i' (tl draws) (swap x i j)
  end.

Definition shuffle (draws : list nat) (x : list A) : list A :=
  shuffle_from (length x - 1) draws x.

(** [b[lo:hi]] for indices that are not negative. *)
Definition slice (b : list A) (lo hi : nat) : list A :=
  drop lo (take hi b).

(** [chunk_array(array, n)] with the generator's outputs [draws]. *)
Definition chunk_array (draws : list nat) (array : list A) (n : nat)
    : result (list (list A)) :=
  let b := shuffle draws array in
  if decide (n = 0) then Raise ZeroDivisionError
  else
    let k := length b `div` n in
    let m := length b `mod` n in
    Ok ((fun i => slice b (i * k + min i m) ((i + 1) * k + min (i + 1) m))
          <$> seq 0 n).
End Chunk.
End Chunk.

(** ** The metadata stores ([mypy/metastore.py]) *)

(** Timestamps are seconds as rationals, which every finite float is;
    [int(t)] drops the fraction (towards zero). *)
Definition py_int (t : Q) : Z := Z.quot (Qnum t) (Z.pos (Qden t)).

(** The quotient [n / d] of positive numbers rounded to a whole number,
    a half to the even side. *)
Definition round_half_even (n d : Z) : Z :=
  let q := (n / d)%Z in
  let r := (n mod d)%Z in
  if (2 * r <? d)%Z then q
  else if (d <? 2 * r)%Z then (q + 1)%Z
  else if Z.even q then q else (q + 1)%Z.

(** [n / d] divided by [2 ^ k], as a fraction. *)
Definition scale2 (n d k : Z) : Z * Z :=
  if (0 <=? k)%Z then (n, d * 2 ^ k)%Z else (n * 2 ^ (- k), d)%Z.

(** The binary floating-point number nearest to [x], with [prec] bits and
    exponents from [emin] to [emax] (IEEE 754, halves to the even side);
    none when [x] is too large. *)
Definition round_float (prec emin emax : Z) (x : Q) : option Q :=
  let n := Z.abs (Qnum x) in
  let d := Z.pos (Qden x) in
  if (n =? 0)%Z then Some 0%Q
  else
    let e0 := (Z.log2 n - Z.log2 d)%Z in
    let '(n0, d0) := scale2 n d e0 in
    let e := if (n0 <? d0)%Z then (e0 - 1)%Z else e0 in
    let u := (Z.max e emin - (prec - 1))%Z in
    let '(n1, d1) := scale2 n d u in
    let m := round_half_even n1 d1 in
    let '(n2, d2) := scale2 m 1 (- u) in
    if (2 ^ (emax + 1) * d2 <=? n2)%Z then None
    else Some (Qred (Qmake (Z.sgn (Qnum x) * n2) (Z.to_pos d2))).

(** A Python float: IEEE double precision. *)
Definition float64 (x : Q) : Q := default 0%Q (round_float 53 (-1022) 1023 x).

(** [os.path.isabs] on POSIX paths. *)
Definition isabs (name : string) : bool := String.prefix "/" name.

(** [os.path.join(a, b)] on POSIX paths. *)
Definition path_join (a b : string) : string :=
  if isabs b then b
  else if decide (a = "") then b
  else if String.prefix "/" (String.rev a) then a +:+ b
  else a +:+ "/" +:+ b.

(** [assert os.path.normpath(name) != os.path.abspath(name)]: the two
    differ exactly when [name] is relative, [abspath] being [normpath] of
    the name joined to the absolute working directory.  The process is
    taken to have a working directory, so that [os.getcwd()] returns. *)
Definition check_relative (name : string) : result unit :=
  if isabs name then Raise AssertionError else Ok ().

(** [except OSError]: the classes it catches. *)
Definition is_OSError (x : exn) : bool :=
  match x with
  | OSError | FileNotFoundError | FileExistsError
  | IsADirectoryError | NotADirectoryError => true
  | _ => false
  end.

(** The two variants of [MetadataStore] follow, one module each.  Every
    operation takes the state of the backing resource (the file tree, the
    table) and the ones that change it return the new state, together with
    what they draw from their surroundings (clock, faults).  A call that
    raises ends the run: the state it leaves is not followed further. *)

Module FilesystemMetadataStore.
(** *** The file tree

    The store works on a POSIX file tree, with the error numbers of Linux,
    made of directories and of regular files that hold text of the
    locale's encoding, which are the strings here; links are not part of
    it.  A node is found at its location, the list of names that leads to
    it from the root directory, which is at [[]], and it carries its
    modification time as [os.stat] reports it, in seconds. *)
Inductive node : Type :=
  | File (data : string) (mtime : Q)
  | Dir (mtime : Q).

Definition node_mtime (n : node) : Q :=
  match n with
  | File _ mtime | Dir mtime => mtime
  end.

(** The tree as the running process sees it: the nodes, and the working
    directory, where relative paths start. *)
Record tree : Type := Tree {
  nodes : gmap (list string) node;
  cwd : list string
}.

(** Limits of the kernel on the length of a path and of one name of it. *)
Definition PATH_MAX : nat := 4096.
Definition NAME_MAX : nat := 255.

(** [path.split("/")] *)
Fixpoint components (path : string) : list string :=
  match path with
  | EmptyString => [""]
  | String c rest =>
      if Ascii.eqb c "/"%char then "" :: components rest
      else
        match components rest with
        | name :: names => String c name :: names
        | [] => [String c ""]
        end
  end.

Definition has_nul (s : string) : bool :=
  existsb (Ascii.eqb "000"%char) (list_ascii_of_string s).

(** What is refused of a path before it is walked: Python raises
    [ValueError] on an embedded null character, the kernel answers
    [ENOENT] to the empty path and [ENAMETOOLONG] to one of [PATH_MAX]
    characters or more. *)
Definition check_path (path : string) : result unit :=
  if has_nul path then Raise ValueError
  else if decide (path = "") then Raise FileNotFoundError
  else if decide (PATH_MAX ≤ String.length path) then Raise OSError
  else Ok ().

(** The node at [loc] has to be a directory for the walk to go on. *)
Definition lookup_dir (ns : gmap (list string) node) (loc : list string)
    : result unit :=
  match ns !! loc with
  | Some (Dir _) => Ok ()
  | Some (File _ _) => Raise NotADirectoryError
  | None => Raise FileNotFoundError
  end.

(** The directory above [loc]; the root is its own parent. *)
Definition parent (loc : list string) : list string := removelast loc.

(** One name of a path, looked up in the directory at [loc].  An empty
    name (a doubled or trailing slash) and [.] stay, [..] goes up. *)
Definition step (ns : gmap (list string) node) (loc : list string)
    (name : string) : result (list string) :=
  _ ← lookup_dir ns loc;
  if decide (name = "" ∨ name = ".") then Ok loc
  else if decide (name = "..") then Ok (parent loc)
  else if decide (NAME_MAX < String.length name) then Raise OSError
  else
    match ns !! (loc ++ [name]) with
    | Some _ => Ok (loc ++ [name])
    | None => Raise FileNotFoundError
    end.

Fixpoint walk (ns : gmap (list string) node) (loc : list string)
    (names : list string) : result (list string) :=
  match names with
  | [] => Ok loc
  | name :: rest =>
      loc ← step ns loc name;
      walk ns loc rest
  end.

(** Where the walk of [path] starts. *)
Definition start (wd : list string) (path : string) : list string :=
  if isabs path then [] else wd.

(** The walk of a path up to its last name: the location reached, and the
    name that is left. *)
Definition resolve_parent (wd : list string) (ns : gmap (list string) node)
    (path : string) : result (list string * string) :=
  _ ← check_path path;
  let names := components path in
  dir ← walk ns (start wd path) (removelast names);
  Ok (dir, List.last names "").

(** The walk of the whole path. *)
Definition resolve (wd : list string) (ns : gmap (list string) node)
    (path : string) : result (list string) :=
  '(dir, name) ← resolve_parent wd ns path;
  step ns dir name.

(** [os.stat(path)] *)
Definition stat (t : tree) (path : string) : result node :=
  loc ← resolve (cwd t) (nodes t) path;
  match nodes t !! loc with
  | Some n => Ok n
  | None => Raise FileNotFoundError
  end.

(** A change of the entries of a directory sets its modification time. *)
Definition touch (now : Q) (loc : list string)
    (ns : gmap (list string) node) : gmap (list string) node :=
  match ns !! loc with
  | Some (Dir _) => <[loc := Dir now]> ns
  | _ => ns
  end.

(** The directories of [ns] are directories of [ns'] too. *)
Definition dirs_kept (ns ns' : gmap (list string) node) : Prop :=
  ∀ loc m, ns !! loc = Some (Dir m) -> ∃ m', ns' !! loc = Some (Dir m').

(** There is no directory at [loc]. *)
Definition not_dir (ns : gmap (list string) node) (loc : list string)
    : Prop :=
  ∀ m, ns !! loc ≠ Some (Dir m).

(** *** The system calls of [write] and [remove]

    Each takes the clock, and those of [write] take whether the call
    [fails] for a reason that the tree does not show (access rights, quota,
    the device): then it raises [OSError] and changes nothing. *)

(** [os.makedirs(..., exist_ok=True)] over the names of the directory's
    path, [pos] characters into it: a name that is missing is made, from
    the outermost inwards, and what has been made stays when a later name
    fails.  At the end of the path there has to be a directory. *)
Fixpoint makedirs_from (fails : bool) (now : Q) (ns : gmap (list string) node)
    (loc : list string) (pos : nat) (names : list string)
    : gmap (list string) node * result unit :=
  match names with
  | [] =>
      match ns !! loc with
      | Some (Dir _) => (ns, Ok ())
      | Some (File _ _) => (ns, Raise FileExistsError)
      | None => (ns, Raise FileNotFoundError)
      end
  | name :: rest =>
      let pos := pos + String.length name in
      if has_nul name then (ns, Raise ValueError)
      else
        match ns !! loc with
        | None => (ns, Raise FileNotFoundError)
        | Some (File _ _) => (ns, Raise NotADirectoryError)
        | Some (Dir _) =>
            if decide (name = "") then
              makedirs_from fails now ns loc (S pos) rest
            else if decide (PATH_MAX ≤ pos) then (ns, Raise OSError)
            else if decide (name = ".") then
              makedirs_from fails now ns loc (S pos) rest
            else if decide (name = "..") then
              makedirs_from fails now ns (parent loc) (S pos) rest
            else if decide (NAME_MAX < String.length name) then
              (ns, Raise OSError)
            else
              match ns !! (loc ++ [name]) with
              | Some _ =>
                  makedirs_from fails now ns (loc ++ [name]) (S pos) rest
              | None =>
                  if fails then (ns, Raise OSError)
                  else
                    makedirs_from fails now
                      (<[loc ++ [name] := Dir now]> (touch now loc ns))
                      (loc ++ [name]) (S pos) rest
              end
        end
  end.

(** [os.makedirs(os.path.dirname(path), exist_ok=True)]: the directory's
    path is [path] without its last name. *)
Definition os_makedirs_dirname (fails : bool) (now : Q) (wd : list string)
    (path : string) (ns : gmap (list string) node)
    : gmap (list string) node * result unit :=
  makedirs_from fails now ns (start wd path) 0 (removelast (components path)).

(** [with open(path, "w") as f: f.write(data)]: the file is made, or cut
    to nothing if it is there, and takes the data. *)
Definition open_write (fails : bool) (now : Q) (wd : list string)
    (path data : string) (ns : gmap (list string) node)
    : result (gmap (list string) node) :=
  _ ← check_path path;
  if fails then Raise OSError
  else
    '(dir, name) ← resolve_parent wd ns path;
    _ ← lookup_dir ns dir;
    if decide (name = "" ∨ name = "." ∨ name = "..") then
      Raise IsADirectoryError
    else if decide (NAME_MAX < String.length name) then Raise OSError
    else
      match ns !! (dir ++ [name]) with
      | Some (Dir _) => Raise IsADirectoryError
      | Some (File _ _) => Ok (<[dir ++ [name] := File data now]> ns)
      | None => Ok (<[dir ++ [name] := File data now]> (touch now dir ns))
      end.

(** [os.replace(src, dst)] for a source that is a regular file, as is the
    one the store has just written: the file leaves its place and takes
    the destination's, whose own file, if any, is gone.  (A directory as
    the source is refused here.) *)
Definition os_replace (fails : bool) (now : Q) (wd : list string)
    (src dst : string) (ns : gmap (list string) node)
    : result (gmap (list string) node) :=
  _ ← check_path src;
  _ ← check_path dst;
  if fails then Raise OSError
  else
    '(sdir, sname) ← resolve_parent wd ns src;
    '(ddir, dname) ← resolve_parent wd ns dst;
    _ ← lookup_dir ns sdir;
    _ ← lookup_dir ns ddir;
    if decide (sname = "" ∨ sname = "." ∨ sname = "..") then Raise OSError
    else if decide (NAME_MAX < String.length sname) then Raise OSError
    else
      match ns !! (sdir ++ [sname]) with
      | None => Raise FileNotFoundError
      | Some (Dir _) => Raise OSError
      | Some (File data mtime) =>
          if decide (dname = "") then Raise NotADirectoryError
          else if decide (dname = "." ∨ dname = "..") then Raise OSError
          else if decide (NAME_MAX < String.length dname) then Raise OSError
          else
            match ns !! (ddir ++ [dname]) with
            | Some (Dir _) => Raise IsADirectoryError
            | _ =>
                Ok (<[ddir ++ [dname] := File data mtime]>
                      (touch now ddir
                         (delete (sdir ++ [sname]) (touch now sdir ns))))
            end
      end.

(** [os.utime(path, times=(mtime, mtime))]: Python turns the number into
    seconds and nanoseconds, with [OverflowError] when the seconds do not
    fit the platform's [time_t] ([in_range] tells); the file system then
    keeps the timestamp, and [kept] is what [os.stat] reports of it. *)
Definition os_utime (fails in_range : bool) (kept : Q) (wd : list string)
    (path : string) (ns : gmap (list string) node)
    : result (gmap (list string) node) :=
  _ ← (if has_nul path then Raise ValueError else Ok ());
  if negb in_range then Raise OverflowError
  else if fails then Raise OSError
  else
    loc ← resolve wd ns path;
    match ns !! loc with
    | Some (File data _) => Ok (<[loc := File data kept]> ns)
    | Some (Dir _) => Ok (<[loc := Dir kept]> ns)
    | None => Raise FileNotFoundError
    end.

(** A plain name: one name of a path, without a slash or a null
    character, that is not empty, not [.] or [..], and of at most
    [NAME_MAX] characters. *)
Definition plain (name : string) : bool :=
  forallb (fun c => negb (Ascii.eqb c "/"%char)) (list_ascii_of_string name)
  && negb (has_nul name)
  && bool_decide (name ≠ "" ∧ name ≠ "." ∧ name ≠ ".." ∧
                  String.length name ≤ NAME_MAX).

(** [os.remove(path)] *)
Definition os_remove (now : Q) (wd : list string) (path : string)
    (ns : gmap (list string) node) : result (gmap (list string) node) :=
  loc ← resolve wd ns path;
  match ns !! loc with
  | Some (File _ _) => Ok (touch now (parent loc) (delete loc ns))
  | Some (Dir _) => Raise IsADirectoryError
  | None => Raise FileNotFoundError
  end.

(** Carriage return and line feed. *)
Definition CR : Ascii.ascii := "013"%char.
Definition LF : Ascii.ascii := "010"%char.

(** [open(path).read()] is in text mode, where a carriage return, with
    the line feed that follows it if one does, is read as a line feed. *)
Fixpoint universal_newlines (data : string) : string :=
  match data with
  | EmptyString => EmptyString
  | String c rest =>
      if Ascii.eqb c CR then
        match rest with
        | String c' rest' =>
            if Ascii.eqb c' LF then String LF (universal_newlines rest')
            else String LF (universal_newlines rest)
        | EmptyString => String LF EmptyString
        end
      else String c (universal_newlines rest)
  end.

Definition has_cr (data : string) : bool :=
  existsb (fun c => Ascii.eqb c CR) (list_ascii_of_string data).

(** *** The store *)

(** Where [write] can meet an [OSError] that the tree does not show. *)
Inductive stage : Type := AtMakedirs | AtOpen | AtReplace | AtUtime.

#[global] Instance stage_eq_dec : EqDecision stage.
Proof. solve_decision. Defined.

(** What an operation takes from its surroundings: the clock, which is the
    modification time of what the call makes or changes, as [os.stat]
    reports it afterwards (a call is within one tick of the file system's
    clock); the characters of [random_string()]; the step (if any) at
    which a system call fails; whether the platform's [time_t] holds the
    seconds of a timestamp; and the modification time that [os.stat]
    reports once [os.utime] has been given a timestamp, which is that
    timestamp as far as the range and the resolution of the file system
    allow. *)
Record env : Type := Env {
  now : Q;
  suffix : string;
  fault : option stage;
  time_t_range : Q -> bool;
  fs_time : Q -> Q
}.

Definition fails (e : env) (s : stage) : bool :=
  bool_decide (fault e = Some s).

(** The timestamp of an entry that [write] has put in place. *)
Definition stamp (e : env) (mtime : option Q) : Q :=
  match mtime with
  | Some mtime => fs_time e mtime
  | None => now e
  end.

(** [__init__]: a prefix under [os.devnull] disables the store. *)
Definition init (cache_dir_prefix : string) : option string :=
  if String.prefix "/dev/null" cache_dir_prefix then None
  else Some cache_dir_prefix.

(** [not self.cache_dir_prefix] *)
Definition disabled (cache_dir_prefix : option string) : bool :=
  match cache_dir_prefix with
  | None => true
  | Some p => bool_decide (p = "")
  end.

Definition prefix_of (cache_dir_prefix : option string) : string :=
  default "" cache_dir_prefix.

(** The statements of a [try] block, run on the nodes of the tree: each
    leaves the nodes it has reached and returns or raises; after a raise
    the later ones are not run. *)
Definition os (A : Type) : Type :=
  gmap (list string) node -> gmap (list string) node * result A.

#[global] Instance os_ret : MRet os := fun A a ns => (ns, Ok a).
#[global] Instance os_bind : MBind os := fun A B k m ns =>
  match m ns with
  | (ns', Ok a) => k a ns'
  | (ns', Raise x) => (ns', Raise x)
  end.

(** A system call does its change as a whole or not at all. *)
Definition syscall
    (call : gmap (list string) node -> result (gmap (list string) node))
    : os unit :=
  fun ns =>
    match call ns with
    | Ok ns' => (ns', Ok ())
    | Raise x => (ns, Raise x)
    end.

Section Store.
Variable cache_dir_prefix : option string.

Definition getmtime (name : string) (t : tree) : result Q :=
  if disabled cache_dir_prefix then Raise FileNotFoundError
  else
    n ← stat t (path_join (prefix_of cache_dir_prefix) name);
    Ok (inject_Z (py_int (node_mtime n))).

Definition read (name : string) (t : tree) : result string :=
  _ ← check_relative name;
  if disabled cache_dir_prefix then Raise FileNotFoundError
  else
    n ← stat t (path_join (prefix_of cache_dir_prefix) name);
    match n with
    | File data _ => Ok (universal_newlines data)
    | Dir _ => Raise IsADirectoryError
    end.

(** The body of [try] in [write]. *)
Definition write_try (e : env) (wd : list string)
    (path tmp_filename data : string) (mtime : option Q) : os unit :=
  _ ← os_makedirs_dirname (fails e AtMakedirs) (now e) wd path;
  _ ← syscall (open_write (fails e AtOpen) (now e) wd tmp_filename data);
  _ ← syscall (os_replace (fails e AtReplace) (now e) wd tmp_filename path);
  match mtime with
  | Some mtime =>
      syscall (os_utime (fails e AtUtime) (time_t_range e mtime)
                 (fs_time e mtime) wd path)
  | None => mret ()
  end.

(** [write]: the data goes to a temporary sibling, which then replaces
    the destination; an explicit [mtime] is applied afterwards.  An
    [OSError] at any step ends the call with [False] and leaves what the
    earlier steps did; any other exception leaves the call. *)
Definition write (e : env) (name data : string) (mtime : option Q)
    (t : tree) : result (bool * tree) :=
  _ ← check_relative name;
  if disabled cache_dir_prefix then Ok (false, t)
  else
    let path := path_join (prefix_of cache_dir_prefix) name in
    let tmp_filename := path +:+ "." +:+ suffix e in
    let '(ns, r) :=
      write_try e (cwd t) path tmp_filename data mtime (nodes t) in
    match r with
    | Ok _ => Ok (true, Tree ns (cwd t))
    | Raise x =>
        if is_OSError x then Ok (false, Tree ns (cwd t)) else Raise x
    end.

Definition remove (e : env) (name : string) (t : tree) : result tree :=
  if disabled cache_dir_prefix then Raise FileNotFoundError
  else
    ns ← os_remove (now e) (cwd t)
           (path_join (prefix_of cache_dir_prefix) name) (nodes t);
    Ok (Tree ns (cwd t)).

(** [commit]: nothing to do. *)
Definition commit (t : tree) : tree := t.
End Store.

(** A platform whose [time_t] has 64 bits. *)
Definition time_t64 (mtime : Q) : bool :=
  bool_decide (- 2 ^ 63 ≤ Qfloor mtime < 2 ^ 63)%Z.

(** What [os.stat] reports after [os.utime] on an ext4 file system: the
    call is given the whole nanoseconds of the number; the file system
    keeps them from 1901 to 2446 and moves a timestamp outside to the
    nearer end; [os.stat] reports the seconds as a float. *)
Definition ext4_time (mtime : Q) : Q :=
  let sec := Qfloor mtime in
  if (sec <=? - 2 ^ 31)%Z then inject_Z (- 2 ^ 31)
  else if (2 ^ 34 - 2 ^ 31 - 1 <=? sec)%Z then inject_Z (2 ^ 34 - 2 ^ 31 - 1)
  else float64 (Qmake (Qfloor (mtime * inject_Z (10 ^ 9))) (10 ^ 9)).
End FilesystemMetadataStore.

Module Fs := FilesystemMetadataStore.

Module SqliteMetadataStore.
(** The table [files]: [path] is the primary key, a row carries [mtime]
    and [data]. *)
Abbreviation table := (gmap string (Q * string)).

(** What [write] takes from its surroundings: [time.time()], whether the
    statement ends in a [psycopg2.Error] of the connection, and the number
    that the [REAL] column, which is of single precision, keeps for one it
    is given; it keeps none for a number beyond its range, and the
    statement ends in a [psycopg2.Error] as well. *)
Record env : Type := Env {
  now : Q;
  db_error : bool;
  real : Q -> option Q
}.

(** [SELECT mtime FROM files WHERE path = %s] *)
Definition getmtime (name : string) (db : table) : result Q :=
  match db !! name with
  | Some row => Ok row.1
  | None => Raise FileNotFoundError
  end.

(** [SELECT data FROM files WHERE path = %s] *)
Definition read (name : string) (db : table) : result string :=
  match db !! name with
  | Some row => Ok row.2
  | None => Raise FileNotFoundError
  end.

(** [INSERT ... ON CONFLICT (path) DO UPDATE SET mtime, data] *)
Definition write (e : env) (name data : string) (mtime : option Q)
    (db : table) : result (bool * table) :=
  let mtime := match mtime with Some t => t | None => now e end in
  if db_error e then Ok (false, db)
  else
    match real e mtime with
    | Some kept => Ok (true, <[name := (kept, data)]> db)
    | None => Ok (false, db)
    end.

(** [DELETE FROM files WHERE path = %s] *)
Definition remove (name : string) (db : table) : result table :=
  Ok (delete name db).

(** [SELECT path FROM files] *)
Definition list_all (db : table) : list string :=
  (map_to_list db).*1.

(** [commit]: the connection is in autocommit mode, every statement is
    already in the table. *)
Definition commit (db : table) : table := db.

(** PostgreSQL's [REAL] is IEEE single precision; a number that is too
    large for it, or that is not zero and would become zero, is out of
    range. *)
Definition float4 (x : Q) : option Q :=
  match round_float 24 (-126) 127 x with
  | Some y =>
      if (Qnum y =? 0)%Z && negb (Qnum x =? 0)%Z then None else Some y
  | None => None
  end.
End SqliteMetadataStore.

Module Sql := SqliteMetadataStore.

(** ** Platforms and trees used in the examples *)

Module StoreExamples.
(** A Linux machine with an ext4 file system on which nothing fails but
    the step [fault]. *)
Definition linux (now : Q) (suffix : string) (fault : option Fs.stage)
    : Fs.env :=
  Fs.Env now suffix fault Fs.time_t64 Fs.ext4_time.

(** A tree with nothing but the root directory, which is also the working
    directory. *)
Definition bare : Fs.tree := Fs.Tree {[ [] := Fs.Dir 0 ]} [].

(** A cache directory [cache] that holds [m.py] and the directory [pkg]. *)
Definition cache : Fs.tree :=
  Fs.Tree {[ [] := Fs.Dir 0;
             ["cache"] := Fs.Dir 0;
             ["cache"; "m.py"] := Fs.File "x" 456;
             ["cache"; "pkg"] := Fs.Dir 789 ]} [].

(** The cache directory after [m.py] has been written into it in the bare
    tree, and after it has been removed again. *)
Definition written : Fs.tree :=
  Fs.Tree {[ [] := Fs.Dir 1000;
             ["cache"] := Fs.Dir 1000;
             ["cache"; "m.py"] := Fs.File "x" 456 ]} [].
Definition removed : Fs.tree :=
  Fs.Tree {[ [] := Fs.Dir 1000; ["cache"] := Fs.Dir 1001 ]} [].

(** A database server that is reached and has a [REAL] column. *)
Definition postgres (now : Q) : Sql.env := Sql.Env now false Sql.float4.
End StoreExamples.

(** ** Inputs used in the examples *)

Module Examples.
(** The sizes of a package whose [__init__.py] is empty. *)
Definition empty_init_sizes (path : string) : N :=
  if String.eqb path "pkg/__init__.py" then 0%N else 1%N.

(** Three modules [A], [B], [C], each a node of its own, in three layers. *)
Definition modules : gset string := list_to_set ["A"; "B"; "C"].
Definition node_sccs : gmap string (list string) :=
  list_to_map [("A", ["A"]); ("B", ["B"]); ("C", ["C"])].
Definition graph : gmap string string :=
  list_to_map [("A", "a.py"); ("B", "b.py"); ("C", "c.py")].
Definition layers : list (list string) := [["A"]; ["B"]; ["C"]].

(** A pool that reports how many commands it ran. *)
Definition run_pool (commands : list (list string)) : nat := length commands.
End Examples.

(** ** Listing the source files ([mypy-pre.py] 8-23, [mypy_pre2.py] 9-24) *)

Module Listing.
(** What [os.listdir], [os.path.isfile] and [os.path.isdir] show of a
    directory: regular files, directories with their own entries, and names
    that are neither (sockets, dangling links).  The tree is finite: links
    that loop back are not part of it. *)
#[warnings="-register-all"]
Inductive node : Type :=
  | RegularFile (name : string)
  | Directory (name : string) (entries : list node)
  | Special (name : string).

(** [s.endswith(suffix)] *)
Definition endswith (s suffix : string) : bool :=
  bool_decide (list_ascii_of_string suffix `suffix_of` list_ascii_of_string s).

(** One item of the loop over [os.listdir(base_dir)]: what it adds to
    [python_files] and to [curr_python_files].  A directory adds the whole
    result of the recursive call, its sub-directories' files followed by its
    own. *)
Fixpoint list_item (base_dir : string) (item : node)
    : list string * list string :=
  let item_path := path_join base_dir
                     match item with
                     | RegularFile name | Directory name _ | Special name => name
                     end in
  match item with
  | RegularFile name =>
      if endswith name ".py" then ([], [item_path]) else ([], [])
  | Directory _ entries =>
      let '(python_files, curr_python_files) :=
        (fix list_items (items : list node) : list string * list string :=
           match items with
           | [] => ([], [])
           | item :: rest =>
               let '(p, c) := list_item item_path item in
               let '(ps, cs) := list_items rest in
               (p ++ ps, c ++ cs)
           end) entries in
      (python_files ++ curr_python_files, [])
  | Special _ => ([], [])
  end.

(** The loop over the items of one directory. *)
Fixpoint list_items (base_dir : string) (items : list node)
    : list string * list string :=
  match items with
  | [] => ([], [])
  | item :: rest =>
      let '(p, c) := list_item base_dir item in
      let '(ps, cs) := list_items base_dir rest in
      (p ++ ps, c ++ cs)
  end.

(** [list_python_files(base_dir)], for a directory with the entries
    [entries]. *)
Definition list_python_files (base_dir : string) (entries : list node)
    : list string :=
  let '(python_files, curr_python_files) := list_items base_dir entries in
  python_files ++ curr_python_files.

(** The Python sources below a directory, told without the traversal: a
    regular file of the directory whose name ends in [.py], or such a file
    below one of its sub-directories. *)
Inductive python_source : string -> list node -> string -> Prop :=
  | source_here base_dir entries name :
      RegularFile name ∈ entries ->
      endswith name ".py" = true ->
      python_source base_dir entries (path_join base_dir name)
  | source_below base_dir entries name sub path :
      Directory name sub ∈ entries ->
      python_source (path_join base_dir name) sub path ->
      python_source base_dir entries path.
End Listing.

(** ** The shuffle-and-split driver ([z.py] 30-45) *)

Module NaiveMain.
Section Main.
(** What one [run_mypy(paths)] call returns. *)
Variable Out : Type.
Variable run_mypy : list string -> Out.

(** [main(paths, num_threads)]: the thread pool is built first and rejects
    a worker count below one; then the chunks are mapped through
    [run_mypy], in order.  The value is the list of results whose length
    the script prints. *)
Definition main (draws : list nat) (paths : list string) (num_threads : Z)
    : result (list Out) :=
  if decide (num_threads ≤ 0)%Z then Raise ValueError
  else
    match Chunk.chunk_array draws paths (Z.to_nat num_threads) with
    | Ok chunks => Ok (run_mypy <$> chunks)
    | Raise e => Raise e
    end.

(** The script calls [main(path_dist)], with the default of one thread. *)
Definition script_main (draws : list nat) (path_dist : list string)
    : result (list Out) :=
  main draws path_dist 1.
End Main.
End NaiveMain.

(** ** The single-pass script as a whole ([mypy-pre.py] 43-69) *)

Module PreScript.
Section Script.
Variable getsize : string -> N.
Variable R : Type.
Variable run_pool : list (list string) -> R.

(** [__main__]: list the sources below [base_path], whose directory has
    the entries [entries], fill the batches and dispatch them. *)
Definition script (base_path : string) (entries : list Listing.node)
    : result R :=
  let res := Listing.list_python_files base_path entries in
  Partition.pre_main getsize R run_pool res.
End Script.
End PreScript.

(** ** Further inputs used in the examples *)

Module MoreExamples.
(** A package with two modules, a data file, a test directory and a
    socket. *)
Definition tree : list Listing.node :=
  [ Listing.RegularFile "setup.py";
    Listing.Directory "pkg"
      [ Listing.RegularFile "a.py";
        Listing.RegularFile "data.txt";
        Listing.Directory "tests" [ Listing.RegularFile "t.py" ] ];
    Listing.Special "sock" ].

(** File sizes: [setup.py] is large, the rest are ten bytes each. *)
Definition sizes (path : string) : N :=
  if String.eqb path "src/setup.py" then 50%N else 10%N.
End MoreExamples.

(** * Properties *)

(** ** Arithmetic and list facts *)

Lemma sumN_app (l1 l2 : list N) : sumN (l1 ++ l2) = (sumN l1 + sumN l2)%N.
Proof.
  induction l1 as [|x l1 IH]; simpl; [done|]. rewrite IH. lia.
Qed.

Lemma ceil_div_Ok (total : N) (n : nat) :
  n ≠ 0 ->
  ∃ target, ceil_div total n = Ok target ∧ (total ≤ N.of_nat n * target)%N.
Proof.
  intros Hn. unfold ceil_div. destruct (decide (n = 0)) as [|_]; [done|].
  eexists; split; [reflexivity|].
  set (d := N.of_nat n). set (x := (total + d - 1)%N).
  assert (Hd : d ≠ 0%N) by (unfold d; lia).
  pose proof (N.mul_succ_div_gt x d Hd) as Hlt.
  rewrite N.mul_succ_r in Hlt. unfold x in *. lia.
Qed.

Lemma ceil_div_inv (total : N) (n : nat) (target : N) :
  ceil_div total n = Ok target ->
  n ≠ 0 ∧ (total ≤ N.of_nat n * target)%N.
Proof.
  intros H. assert (Hn : n ≠ 0).
  { intros ->. discriminate H. }
  split; [done|]. destruct (ceil_div_Ok total n Hn) as (t & Ht & Hle).
  congruence.
Qed.

Lemma concat_all_nil {A : Type} (ls : list (list A)) :
  (∀ j l, ls !! j = Some l -> l = []) -> concat ls = [].
Proof.
  induction ls as [|l ls IH]; intros H; simpl; [done|].
  rewrite (H 0 l eq_refl). simpl. apply IH.
  intros j l' Hj. apply (H (S j) l' Hj).
Qed.

(** Appending to the last non-empty bucket appends to the concatenation. *)
Lemma concat_insert_last {A : Type} (ls : list (list A)) (i : nat)
    (l : list A) (x : A) :
  ls !! i = Some l ->
  (∀ j l', i < j -> ls !! j = Some l' -> l' = []) ->
  concat (<[i := l ++ [x]]> ls) = concat ls ++ [x].
Proof.
  revert i. induction ls as [|l0 ls IH]; intros i Hi Hnil; [done|].
  destruct i as [|i]; simpl in *.
  - injection Hi as ->.
    rewrite (concat_all_nil ls).
    + by rewrite !app_nil_r.
    + intros j l' Hj. apply (Hnil (S j) l'); [lia|done].
  - rewrite (IH i Hi).
    + by rewrite app_assoc.
    + intros j l' Hlt Hj. apply (Hnil (S j) l'); [lia|done].
Qed.

Lemma concat_filter_nonempty {A : Type} (ls : list (list A)) :
  concat (filter (fun l => l ≠ []) ls) = concat ls.
Proof.
  induction ls as [|l ls IH]; [done|].
  rewrite filter_cons. destruct (decide (l ≠ [])) as [Hne|He]; simpl.
  - by rewrite IH.
  - destruct l; [by rewrite IH | by destruct He].
Qed.

(** ** The greedy fill *)

Section PartitionFacts.
Import Partition.
Variable getsize : string -> N.

Local Abbreviation cost := (Partition.cost getsize).
Local Abbreviation mk_command := (Partition.mk_command getsize).
Local Abbreviation fill_step := (Partition.fill_step getsize).
Local Abbreviation fill_loop := (Partition.fill_loop getsize).
Local Abbreviation fill_inv := (Partition.fill_inv getsize).

Lemma cost_snoc (ps : list string) (p : string) :
  cost (ps ++ [p]) = (cost ps + getsize p)%N.
Proof.
  unfold Partition.cost. rewrite fmap_app, sumN_app. simpl. lia.
Qed.

Lemma cost_app (ps qs : list string) :
  cost (ps ++ qs) = (cost ps + cost qs)%N.
Proof. unfold Partition.cost. by rewrite fmap_app, sumN_app. Qed.

Lemma getsize_le_max_cost (paths : list string) :
  Forall (fun p => (getsize p ≤ max_cost getsize paths)%N) paths.
Proof.
  induction paths as [|p paths IH]; constructor.
  - apply N.le_max_l.
  - eapply Forall_impl; [exact IH|]. intros q Hq.
    etrans; [exact Hq|]. apply N.le_max_r.
Qed.

Lemma init_commands_mk (n : nat) :
  init_commands n = mk_command <$> replicate n [].
Proof. unfold init_commands. by rewrite fmap_replicate. Qed.

(** The step on the batches' units. *)
Lemma fill_step_units (target : N) (bs : list (list string)) (idx : nat)
    (ps0 : list string) (p : string) :
  bs !! idx = Some ps0 ->
  fill_step target (mk_command <$> bs, idx) p =
    let idx' := if (target <=? cost ps0)%N then S idx else idx in
    match bs !! idx' with
    | Some ps => Ok (mk_command <$> <[idx' := ps ++ [p]]> bs, idx')
    | None => Raise IndexError
    end.
Proof.
  intros H0. unfold Partition.fill_step, getitem.
  rewrite list_lookup_fmap, H0. simpl.
  destruct (target <=? cost ps0)%N; simpl;
    rewrite list_lookup_fmap;
    (match goal with |- context [bs !! ?i] => destruct (bs !! i) as [ps|] end);
    simpl; try reflexivity;
    by rewrite list_fmap_insert, <- cost_snoc.
Qed.

Lemma fill_inv_init (n : nat) (target M : N) :
  n ≠ 0 -> fill_inv n target M [] (replicate n []) 0.
Proof.
  intros Hn. split.
  - by rewrite length_replicate.
  - lia.
  - apply concat_all_nil. intros j l Hj.
    by apply lookup_replicate in Hj as [-> _].
  - intros j ps _ Hj. by apply lookup_replicate in Hj as [-> _].
  - intros j ps Hj. lia.
  - intros j ps Hj. apply lookup_replicate in Hj as [-> _].
    unfold Partition.cost. simpl. lia.
Qed.

(** One step keeps the invariant whenever it does not raise. *)
Lemma fill_step_inv (n : nat) (target M : N) (seen : list string)
    (bs : list (list string)) (idx : nat) (p : string)
    (st' : list command * nat) :
  fill_inv n target M seen bs idx ->
  (getsize p ≤ M)%N ->
  fill_step target (mk_command <$> bs, idx) p = Ok st' ->
  ∃ bs' idx', st' = (mk_command <$> bs', idx') ∧ (idx ≤ idx')%nat ∧
              fill_inv n target M (seen ++ [p]) bs' idx'.
Proof.
  intros [Hlen Hidx Hseen Hlater Hfull Hbound] Hp Hstep.
  destruct (lookup_lt_is_Some_2 bs idx) as [ps0 H0]; [lia|].
  rewrite (fill_step_units _ _ _ _ _ H0) in Hstep. simpl in Hstep.
  destruct (N.leb_spec target (cost ps0)) as [Hge|Hlt].
  - destruct (bs !! S idx) as [ps1|] eqn:H1; [|discriminate].
    injection Hstep as <-. exists (<[S idx := ps1 ++ [p]]> bs), (S idx).
    assert (ps1 = []) as -> by (apply (Hlater (S idx)); [lia|done]).
    pose proof (lookup_lt_Some _ _ _ H1) as Hlt1.
    split; [done|]. split; [lia|]. split.
    + by rewrite length_insert.
    + lia.
    + rewrite (concat_insert_last bs (S idx) [] p H1); [by rewrite Hseen|].
      intros j l' Hj. apply Hlater. lia.
    + intros j ps Hj Hl. rewrite list_lookup_insert_ne in Hl by lia.
      apply (Hlater j); [lia|done].
    + intros j ps Hj Hl. rewrite list_lookup_insert_ne in Hl by lia.
      destruct (decide (j = idx)) as [->|Hne].
      * congruence.
      * apply (Hfull j); [lia|done].
    + intros j ps Hl. destruct (decide (j = S idx)) as [->|Hne].
      * rewrite list_lookup_insert_eq in Hl by lia. injection Hl as <-.
        unfold Partition.cost. simpl. lia.
      * rewrite list_lookup_insert_ne in Hl by done. by apply (Hbound j).
  - rewrite H0 in Hstep. injection Hstep as <-.
    exists (<[idx := ps0 ++ [p]]> bs), idx.
    split; [done|]. split; [lia|]. split.
    + by rewrite length_insert.
    + lia.
    + rewrite (concat_insert_last bs idx ps0 p H0); [by rewrite Hseen|].
      exact Hlater.
    + intros j ps Hj Hl. rewrite list_lookup_insert_ne in Hl by lia.
      by apply (Hlater j).
    + intros j ps Hj Hl. rewrite list_lookup_insert_ne in Hl by lia.
      by apply (Hfull j).
    + intros j ps Hl. destruct (decide (j = idx)) as [->|Hne].
      * rewrite list_lookup_insert_eq in Hl by lia. injection Hl as <-.
        rewrite cost_snoc. lia.
      * rewrite list_lookup_insert_ne in Hl by done. by apply (Hbound j).
Qed.

Lemma fill_loop_cons (target : N) (st : list command * nat) (p : string)
    (paths : list string) :
  fill_loop target st (p :: paths) =
    (st' ← fill_step target st p; fill_loop target st' paths).
Proof. reflexivity. Qed.

(** The loop keeps the invariant whenever it does not raise. *)
Lemma fill_loop_inv (n : nat) (target M : N) (paths : list string) :
  ∀ (seen : list string) (bs : list (list string)) (idx : nat)
    (st' : list command * nat),
  fill_inv n target M seen bs idx ->
  Forall (fun p => (getsize p ≤ M)%N) paths ->
  fill_loop target (mk_command <$> bs, idx) paths = Ok st' ->
  ∃ bs' idx', st' = (mk_command <$> bs', idx') ∧ (idx ≤ idx')%nat ∧
              fill_inv n target M (seen ++ paths) bs' idx'.
Proof.
  induction paths as [|p paths IH]; intros seen bs idx st' Hinv HM Hloop.
  - simpl in Hloop. injection Hloop as <-. exists bs, idx.
    by rewrite app_nil_r.
  - rewrite fill_loop_cons in Hloop. apply Forall_cons in HM as [Hp HM].
    destruct (fill_step target (mk_command <$> bs, idx) p) as [st1|e] eqn:Hs;
      simpl in Hloop; [|discriminate].
    destruct (fill_step_inv _ _ _ _ _ _ _ _ Hinv Hp Hs)
      as (bs1 & idx1 & -> & Hle1 & Hinv1).
    destruct (IH _ _ _ _ Hinv1 HM Hloop) as (bs' & idx' & -> & Hle & Hinv').
    exists bs', idx'. rewrite <- app_assoc in Hinv'. split; [done|].
    split; [lia | done].
Qed.

Lemma fill_loop_app (target : N) (l1 l2 : list string) :
  ∀ st, fill_loop target st (l1 ++ l2) =
          (st' ← fill_loop target st l1; fill_loop target st' l2).
Proof.
  induction l1 as [|p l1 IH]; intros st; [done|].
  rewrite <- app_comm_cons, !fill_loop_cons.
  destruct (fill_step target st p) as [st1|e]; simpl; [apply IH | done].
Qed.

(** Batches that all reached the target weigh at least [target] each. *)
Lemma full_batches_cost (target : N) (bs : list (list string)) :
  (∀ j ps, bs !! j = Some ps -> (target ≤ cost ps)%N) ->
  (N.of_nat (length bs) * target ≤ cost (concat bs))%N.
Proof.
  induction bs as [|b bs IH]; intros Hfull; simpl; [lia|].
  rewrite cost_app. pose proof (Hfull 0 b eq_refl) as Hb.
  assert (IH' : (N.of_nat (length bs) * target ≤ cost (concat bs))%N).
  { apply IH. intros j ps Hj. apply (Hfull (S j) ps Hj). }
  lia.
Qed.

(** With a unit of positive cost still to place, some batch is below the
    target or untouched, so the step finds its batch. *)
Lemma fill_step_pos (n : nat) (target M : N) (seen : list string)
    (bs : list (list string)) (idx : nat) (p : string) :
  fill_inv n target M seen bs idx ->
  (0 < getsize p)%N ->
  (cost seen + getsize p ≤ N.of_nat n * target)%N ->
  ∃ st', fill_step target (mk_command <$> bs, idx) p = Ok st'.
Proof.
  intros [Hlen Hidx Hseen Hlater Hfull Hbound] Hpos Htot.
  destruct (lookup_lt_is_Some_2 bs idx) as [ps0 H0]; [lia|].
  rewrite (fill_step_units _ _ _ _ _ H0). simpl.
  destruct (N.leb_spec target (cost ps0)) as [Hge|Hlt].
  - destruct (bs !! S idx) as [ps1|] eqn:H1; [by eexists|].
    exfalso. apply lookup_ge_None in H1.
    assert (Hall : ∀ j ps, bs !! j = Some ps -> (target ≤ cost ps)%N).
    { intros j ps Hj. pose proof (lookup_lt_Some _ _ _ Hj).
      destruct (decide (j = idx)) as [->|Hne]; [congruence|].
      apply (Hfull j); [lia|done]. }
    apply full_batches_cost in Hall. rewrite Hlen, Hseen in Hall. lia.
  - rewrite H0. by eexists.
Qed.

Lemma fill_loop_pos (n : nat) (target M : N) (paths : list string) :
  ∀ (seen : list string) (bs : list (list string)) (idx : nat),
  fill_inv n target M seen bs idx ->
  Forall (fun p => (0 < getsize p)%N) paths ->
  Forall (fun p => (getsize p ≤ M)%N) paths ->
  (cost seen + cost paths ≤ N.of_nat n * target)%N ->
  ∃ st', fill_loop target (mk_command <$> bs, idx) paths = Ok st'.
Proof.
  induction paths as [|p paths IH];
    intros seen bs idx Hinv Hpos HM Htot; [by eexists|].
  apply Forall_cons in Hpos as [Hp Hpos]. apply Forall_cons in HM as [Hm HM].
  change (p :: paths) with ([p] ++ paths) in Htot.
  rewrite cost_app in Htot.
  assert (Hp1 : cost [p] = getsize p) by (unfold Partition.cost; simpl; lia).
  destruct (fill_step_pos _ _ _ _ _ _ p Hinv Hp) as [st1 Hs]; [lia|].
  destruct (fill_step_inv _ _ _ _ _ _ _ _ Hinv Hm Hs)
    as (bs1 & idx1 & -> & _ & Hinv1).
  rewrite fill_loop_cons, Hs. simpl.
  apply (IH _ _ _ Hinv1 Hpos HM). rewrite cost_snoc. lia.
Qed.

(** What a completed fill has built, in terms of the batches' units. *)
Lemma greedy_fill_inv (n : nat) (paths : list string)
    (commands : list command) (idx : nat) :
  greedy_fill getsize n paths = Ok (commands, idx) ->
  ∃ target bs,
    ceil_div (cost paths) n = Ok target ∧
    commands = mk_command <$> bs ∧
    fill_inv n target (max_cost getsize paths) paths bs idx.
Proof.
  unfold greedy_fill. fold (cost paths).
  destruct (ceil_div (cost paths) n) as [target|e] eqn:Hc; simpl;
    [|discriminate].
  intros Hloop. apply ceil_div_inv in Hc as Hn. destruct Hn as [Hn _].
  rewrite init_commands_mk in Hloop.
  destruct (fill_loop_inv n target (max_cost getsize paths) paths
              [] _ _ _ (fill_inv_init n target _ Hn)
              (getsize_le_max_cost paths) Hloop)
    as (bs & idx' & Heq & _ & Hinv).
  injection Heq as -> ->. by exists target, bs.
Qed.

Lemma submit_commands_mk (bs : list (list string)) :
  submit_commands (mk_command <$> bs) =
    (fun ps => "mypy" :: ps) <$> filter (fun ps => ps ≠ []) bs.
Proof.
  unfold submit_commands. induction bs as [|ps bs IH]; [done|].
  rewrite fmap_cons, !filter_cons. simpl.
  destruct (decide (1 < S (length ps))%nat) as [H1|H1];
    destruct (decide (ps ≠ [])) as [H2|H2]; simpl.
  - f_equal. exact IH.
  - destruct ps; [simpl in H1; lia | by destruct H2].
  - destruct ps; [done | simpl in H1; lia].
  - exact IH.
Qed.

(** X1. Whenever the fill runs to completion, the batches it submits split
    the input, in order, into at most [n] non-empty runs, none heavier than
    the target plus the largest unit. *)
Theorem greedy_fill_completed (n : nat) (paths : list string)
    (commands : list command) (idx : nat) :
  greedy_fill getsize n paths = Ok (commands, idx) ->
  ∃ target,
    ceil_div (cost paths) n = Ok target ∧
    concat (units_of <$> submit_commands commands) = paths ∧
    (length (submit_commands commands) ≤ n)%nat ∧
    Forall (fun batch =>
              units_of batch ≠ [] ∧
              (cost (units_of batch) ≤ target + max_cost getsize paths)%N)
           (submit_commands commands).
Proof.
  intros Hfill.
  destruct (greedy_fill_inv _ _ _ _ Hfill) as (target & bs & Hc & -> & Hinv).
  destruct Hinv as [Hlen _ Hseen _ _ Hbound].
  exists target. split; [done|]. rewrite submit_commands_mk.
  rewrite <- list_fmap_compose. split; [|split].
  - assert (Hid : ∀ l : list (list string),
               (units_of ∘ (fun ps => "mypy" :: ps)) <$> l = l).
    { intros l. induction l as [|a l IHl]; [done|].
      rewrite fmap_cons, IHl. done. }
    by rewrite Hid, concat_filter_nonempty.
  - rewrite length_fmap, <- Hlen. apply length_filter.
  - apply Forall_fmap, Forall_forall. intros ps Hin.
    apply list_elem_of_filter in Hin as [Hne Hin]. simpl.
    apply list_elem_of_lookup in Hin as [j Hj]. split; [done|].
    by apply (Hbound j).
Qed.


(** C5 (as amended). The number of batches requested is the length of
    [commands]: in [process_layer] it is the smaller of 16 and the number
    of units; in the single-pass script it is 8 whatever the number of
    units. *)
Theorem num_batches_requested (paths : list string)
    (commands : list command) (idx : nat) :
  (layer_fill getsize paths = Ok (commands, idx) ->
     length commands = min 16 (length paths)) ∧
  (pre_fill getsize paths = Ok (commands, idx) ->
     length commands = 8).
Proof.
  split; intros Hfill;
    destruct (greedy_fill_inv _ _ _ _ Hfill) as (target & bs & _ & -> & Hinv);
    destruct Hinv as [Hlen _ _ _ _ _]; by rewrite length_fmap.
Qed.
End PartitionFacts.


(** C1. The fill does not place every unit of every input: units of cost
    zero drive [append_idx] past the last batch and the fill raises
    [IndexError].  Two empty files in [process_layer] (two batches, target
    0); sixteen one-byte files followed by an empty one in [process_layer]
    (sixteen batches, target 1); eight empty files in the single-pass
    script. *)
Theorem zero_cost_units_overrun :
  Partition.layer_partition (fun _ => 0%N) ["a.py"; "b.py"]
    = Raise IndexError ∧
  Partition.layer_partition Examples.empty_init_sizes
    (replicate 16 "pkg/m.py" ++ ["pkg/__init__.py"]) = Raise IndexError ∧
  Partition.pre_partition (fun _ => 0%N) (replicate 8 "a.py")
    = Raise IndexError.
Proof. repeat split; reflexivity. Qed.

(** C5, the claim as stated fails: with three files the single-pass script
    still requests eight batches, not [min 8 3]. *)
Lemma num_batches_not_min :
  ∃ commands idx,
    Partition.pre_fill (fun _ => 1%N) ["a.py"; "b.py"; "c.py"]
      = Ok (commands, idx) ∧
    length commands = 8 ∧
    length commands ≠ min Partition.pre_num_procs (length ["a.py"; "b.py"; "c.py"]).
Proof.
  eexists _, _. split; [reflexivity|]. split; [reflexivity|]. simpl. lia.
Qed.

Lemma num_batches_requested_witness :
  ∃ lc li pc pi,
    Partition.layer_fill (fun _ => 1%N) ["a.py"; "b.py"; "c.py"] = Ok (lc, li) ∧
    length lc = min 16 3 ∧
    Partition.pre_fill (fun _ => 1%N) (replicate 9 "a.py") = Ok (pc, pi) ∧
    length pc = 8.
Proof.
  eexists _, _, _, _. split; [reflexivity|]. split.
  - eapply (proj1 (num_batches_requested (fun _ => 1%N)
                     ["a.py"; "b.py"; "c.py"] _ _)). reflexivity.
  - split; [reflexivity|].
    eapply (proj2 (num_batches_requested (fun _ => 1%N)
                     (replicate 9 "a.py") _ _)). reflexivity.
Defined.

(** ** The accumulation loop *)

(** *** The specification's flush sequence *)

Section SpecFlushes.
Import Scheduler.
Implicit Types (pending : gset string) (contribs : list (gset string)).

Lemma spec_flushes_union (threshold : nat) contribs :
  ∀ pending,
    ⋃ (spec_flushes threshold pending contribs) = pending ∪ ⋃ contribs.
Proof.
  induction contribs as [|c rest IH]; intros pending; simpl.
  - destruct (decide (pending = ∅)) as [->|_]; simpl; set_solver.
  - destruct (decide (threshold ≤ size (pending ∪ c))%nat); simpl.
    + rewrite IH. set_solver.
    + rewrite IH. set_solver.
Qed.

Lemma spec_flushes_disjoint (threshold : nat) contribs :
  ∀ pending,
    pending ## ⋃ contribs ->
    pairwise_disjoint contribs ->
    pairwise_disjoint (spec_flushes threshold pending contribs).
Proof.
  induction contribs as [|c rest IH]; intros pending Hp Hd; simpl.
  - destruct (decide (pending = ∅)); simpl; [done|]. split; [set_solver|done].
  - simpl in Hp, Hd. destruct Hd as [Hc Hd].
    destruct (decide (threshold ≤ size (pending ∪ c))%nat); simpl.
    + split.
      * rewrite spec_flushes_union. set_solver.
      * apply IH; [set_solver|done].
    + apply IH; [set_solver|done].
Qed.

(** Every flush but the last was triggered by the threshold; the last
    one, if it was not, holds the non-empty remainder. *)
Lemma spec_flushes_sizes (threshold : nat) contribs :
  ∀ pending gs g,
    spec_flushes threshold pending contribs = gs ++ [g] ->
    Forall (fun g' => (threshold ≤ size g')%nat) gs ∧
    ((threshold ≤ size g)%nat ∨ g ≠ ∅).
Proof.
  induction contribs as [|c rest IH]; intros pending gs g Heq; simpl in Heq.
  - destruct (decide (pending = ∅)) as [|Hne].
    + by destruct gs.
    + destruct gs as [|g0 gs]; simpl in Heq.
      * injection Heq as <-. split; [constructor | by right].
      * injection Heq as _ Heq. by destruct gs.
  - destruct (decide (threshold ≤ size (pending ∪ c))%nat) as [Hle|_].
    + destruct gs as [|g0 gs]; simpl in Heq.
      * injection Heq as <- _. split; [constructor | by left].
      * injection Heq as <- Heq. destruct (IH _ _ _ Heq) as [Hgs Hg].
        split; [by constructor | done].
    + exact (IH _ _ _ Heq).
Qed.
End SpecFlushes.

(** *** The loop against the specification *)

Section SchedulerFacts.
Import Scheduler.
Variable getsize : string -> N.
Variable R : Type.
Variable run_pool : list (list string) -> R.
Variable modules : gset string.
Variable node_sccs : gmap string (list string).
Variable graph : gmap string string.

Local Abbreviation flush := (Scheduler.flush getsize R run_pool graph).
Local Abbreviation layer_step :=
  (Scheduler.layer_step getsize R run_pool modules node_sccs graph).
Local Abbreviation layers_loop :=
  (Scheduler.layers_loop getsize R run_pool modules node_sccs graph).
Local Abbreviation accumulate :=
  (Scheduler.accumulate getsize R run_pool modules node_sccs graph).
Local Abbreviation layer_units := (Scheduler.layer_units modules node_sccs).
Local Abbreviation resolved := (Scheduler.resolved graph).
Local Abbreviation dispatched := (Scheduler.dispatched getsize R run_pool).

(** A flush that returns has logged the whole pending set, holds the
    result of its dispatch, and leaves nothing pending. *)
Lemma flush_Ok (s s' : state R) :
  flush s = Ok s' ->
  ∃ paths r,
    resolved (curr_inters s) paths ∧ dispatched paths r ∧
    s' = State ∅ (proc_sets s ++ [paths]) (result_list s ++ [r]).
Proof.
  unfold Scheduler.flush, Scheduler.resolved, Scheduler.dispatched.
  destruct (Scheduler.node_paths graph (elements (curr_inters s)))
    as [paths|e] eqn:Hpaths; simpl; [|discriminate].
  destruct (Partition.process_layer getsize R run_pool paths)
    as [r|e] eqn:Hr; simpl; [|discriminate].
  intros [= <-]. by exists paths, r.
Qed.

(** One layer: the step flushes exactly when the enlarged pending set has
    reached the threshold. *)
Lemma layer_step_Ok (threshold : nat) (s s' : state R) (layer : list string) :
  layer_step threshold s layer = Ok s' ->
  let pending := curr_inters s ∪ layer_units layer in
  ((threshold ≤ size pending)%nat ∧
     ∃ paths r,
       resolved pending paths ∧ dispatched paths r ∧
       s' = State ∅ (proc_sets s ++ [paths]) (result_list s ++ [r])) ∨
  ((size pending < threshold)%nat ∧
     s' = State pending (proc_sets s) (result_list s)).
Proof.
  unfold Scheduler.layer_step. simpl.
  destruct (decide (threshold ≤ size (curr_inters s ∪ layer_units layer))%nat)
    as [Hle|Hlt]; intros Hs.
  - left. split; [done|]. by apply flush_Ok in Hs.
  - right. split; [lia|]. by injection Hs as <-.
Qed.

Lemma layers_loop_spec (threshold : nat) (layers : list (list string)) :
  ∀ s s' : state R,
    layers_loop threshold s layers = Ok s' ->
    ∃ gs pss rs,
      proc_sets s' = proc_sets s ++ pss ∧
      result_list s' = result_list s ++ rs ∧
      Forall2 resolved gs pss ∧ Forall2 dispatched pss rs ∧
      spec_flushes threshold (curr_inters s) (layer_units <$> layers)
        = gs ++ spec_flushes threshold (curr_inters s') [].
Proof.
  induction layers as [|layer rest IH]; intros s s' Hloop.
  - injection Hloop as <-. exists [], [], [].
    rewrite !app_nil_r. repeat split; constructor.
  - change (Scheduler.layers_loop getsize R run_pool modules node_sccs graph
              threshold s (layer :: rest))
      with (s1 ← layer_step threshold s layer; layers_loop threshold s1 rest)
      in Hloop.
    destruct (layer_step threshold s layer) as [s1|e] eqn:Hstep;
      simpl in Hloop; [|discriminate].
    destruct (IH _ _ Hloop) as (gs & pss & rs & Hp & Hr & Hgs & Hrs & Hspec).
    rewrite fmap_cons. simpl spec_flushes.
    apply layer_step_Ok in Hstep
      as [(Hle & paths & r & Hres & Hdis & ->)|(Hlt & ->)]; simpl in *.
    + exists ((curr_inters s ∪ layer_units layer) :: gs), (paths :: pss),
        (r :: rs).
      rewrite decide_True by done. rewrite Hp, Hr, <- !app_assoc, Hspec.
      repeat split; by constructor.
    + exists gs, pss, rs. rewrite decide_False by lia.
      by rewrite Hp, Hr, Hspec.
Qed.

Lemma flush_returns (s : state R) (paths : list string) (r : R) :
  resolved (curr_inters s) paths -> dispatched paths r ->
  flush s = Ok (State ∅ (proc_sets s ++ [paths]) (result_list s ++ [r])).
Proof.
  unfold Scheduler.flush, Scheduler.resolved, Scheduler.dispatched.
  intros -> Hr. simpl. by rewrite Hr.
Qed.

(** The loop returns when every flush the specification asks for can be
    resolved and dispatched. *)
Lemma layers_loop_returns (threshold : nat) (layers : list (list string)) :
  ∀ s : state R,
    (∀ g, g ∈ spec_flushes threshold (curr_inters s) (layer_units <$> layers) ->
          ∃ paths r, resolved g paths ∧ dispatched paths r) ->
    ∃ s', layers_loop threshold s layers = Ok s'.
Proof.
  induction layers as [|layer rest IH]; intros s Hall; [by eexists|].
  rewrite fmap_cons in Hall. simpl spec_flushes in Hall.
  change (Scheduler.layers_loop getsize R run_pool modules node_sccs graph
            threshold s (layer :: rest))
    with (s1 ← layer_step threshold s layer; layers_loop threshold s1 rest).
  unfold Scheduler.layer_step. simpl.
  destruct (decide (threshold ≤ size (curr_inters s ∪ layer_units layer))%nat)
    as [Hle|Hlt].
  - destruct (Hall (curr_inters s ∪ layer_units layer))
      as (paths & r & Hres & Hdis); [by left|].
    erewrite flush_returns by done. simpl. apply IH. simpl.
    intros g Hg. apply Hall. by right.
  - simpl. apply IH. simpl. exact Hall.
Qed.

Lemma accumulate_returns (threshold : nat) (layers : list (list string)) :
  (∀ g, g ∈ spec_flushes threshold ∅ (layer_units <$> layers) ->
        ∃ paths r, resolved g paths ∧ dispatched paths r) ->
  ∃ s, accumulate threshold layers = Ok s.
Proof.
  intros Hall. unfold Scheduler.accumulate.
  destruct (layers_loop_returns threshold layers (init R) Hall) as [s1 Hloop].
  rewrite Hloop. simpl.
  destruct (decide (0 < size (curr_inters s1))%nat) as [Hpos|Hz];
    [|by eexists].
  destruct (layers_loop_spec _ _ _ _ Hloop)
    as (gs & pss & rs & _ & _ & _ & _ & Hspec).
  simpl in Hspec.
  destruct (decide (curr_inters s1 = ∅)) as [He|Hne].
  { rewrite He, size_empty in Hpos. lia. }
  destruct (Hall (curr_inters s1)) as (paths & r & Hres & Hdis).
  { rewrite Hspec. apply elem_of_app. right. by left. }
  erewrite flush_returns by done. by eexists.
Qed.

(** X26. A run of the accumulation loop that returns has flushed exactly
    as the specification's scheduler does: layer by layer the units join
    the pending set, a flush takes the whole pending set as soon as its
    size reaches the threshold and clears it, and one last flush takes a
    non-empty remainder.  The log [proc_sets] holds the paths of these
    flushes in order, each with what [process_layer] has returned for it
    in [result_list]; nothing is pending at the end; together the flushes
    hold every unit of every layer; when no unit occurs in two layers, no
    unit occurs in two flushes; every flush but the last holds at least
    [threshold] units, and the last holds that many or is the non-empty
    remainder. *)
Theorem accumulate_flushes (threshold : nat) (layers : list (list string))
    (s : state R) :
  accumulate threshold layers = Ok s ->
  let contribs := layer_units <$> layers in
  let flushes := spec_flushes threshold ∅ contribs in
  curr_inters s = ∅ ∧
  Forall2 resolved flushes (proc_sets s) ∧
  Forall2 dispatched (proc_sets s) (result_list s) ∧
  ⋃ flushes = ⋃ contribs ∧
  (pairwise_disjoint contribs -> pairwise_disjoint flushes) ∧
  (∀ gs g, flushes = gs ++ [g] ->
     Forall (fun g' => (threshold ≤ size g')%nat) gs ∧
     ((threshold ≤ size g)%nat ∨ g ≠ ∅)).
Proof.
  intros Hrun contribs flushes.
  assert (Hlog : curr_inters s = ∅ ∧ Forall2 resolved flushes (proc_sets s) ∧
                 Forall2 dispatched (proc_sets s) (result_list s)).
  { unfold Scheduler.accumulate in Hrun.
    destruct (layers_loop threshold (init R) layers) as [s1|e] eqn:Hloop;
      simpl in Hrun; [|discriminate].
    destruct (layers_loop_spec _ _ _ _ Hloop)
      as (gs & pss & rs & Hp & Hr & Hgs & Hrs & Hspec).
    simpl in Hp, Hr, Hspec. fold contribs in Hspec. fold flushes in Hspec.
    destruct (decide (0 < size (curr_inters s1))%nat) as [Hpos|Hz].
    - apply flush_Ok in Hrun as (paths & r & Hres & Hdis & ->). simpl.
      rewrite decide_False in Hspec
        by (intros He; rewrite He, size_empty in Hpos; lia).
      rewrite Hspec, Hp, Hr. split; [done|].
      split; (apply Forall2_app; [done | by constructor]).
    - injection Hrun as <-.
      assert (He : curr_inters s1 = ∅).
      { apply leibniz_equiv, size_empty_iff. lia. }
      rewrite decide_True in Hspec by done. rewrite app_nil_r in Hspec.
      by rewrite Hspec, Hp, Hr. }
  destruct Hlog as (He & Hres & Hdis). repeat split; try done.
  - unfold flushes. rewrite spec_flushes_union. set_solver.
  - intros Hd. apply spec_flushes_disjoint; [set_solver | done].
  - by eapply spec_flushes_sizes.
  - by eapply spec_flushes_sizes.
Qed.
End SchedulerFacts.

(** The specification's scenario with threshold 2: the first flush comes
    after the second layer, the second is the remainder. *)
Lemma accumulate_flushes_witness :
  ∃ s,
    Scheduler.accumulate (fun _ => 1%N) nat Examples.run_pool
      Examples.modules Examples.node_sccs Examples.graph 2 Examples.layers
      = Ok s ∧
    Scheduler.curr_inters s = ∅ ∧
    Scheduler.proc_sets s = [["a.py"; "b.py"]; ["c.py"]] ∧
    Forall2 (Scheduler.resolved Examples.graph)
      (Scheduler.spec_flushes 2 ∅
         (Scheduler.layer_units Examples.modules Examples.node_sccs
            <$> Examples.layers))
      (Scheduler.proc_sets s).
Proof.
  destruct (Scheduler.accumulate (fun _ => 1%N) nat Examples.run_pool
              Examples.modules Examples.node_sccs Examples.graph 2
              Examples.layers) as [s|e] eqn:Hrun.
  - exists s. split; [reflexivity|].
    destruct (accumulate_flushes _ _ _ _ _ _ _ _ _ Hrun) as (He & Hres & _).
    split; [exact He|]. split; [|exact Hres].
    vm_compute in Hrun. by injection Hrun as <-.
  - vm_compute in Hrun. discriminate Hrun.
Defined.

(** C4. The claim fails as soon as the files of a flush are empty.  In a
    run of one module whose file is empty, the module is pending after the
    loop over the layers and nothing has been dispatched; the final flush
    resolves it to its path and asks [process_layer] for one batch with a
    target of zero, whose fill leaves the only batch at once and raises
    [IndexError]; the script ends with this exception, and the pending
    module has been dispatched in no flush.  The same run with a file of
    one byte dispatches the module in the final flush. *)
Theorem empty_file_never_dispatched :
  let modules : gset string := {["A"]} in
  let node_sccs : gmap string (list string) := {["A" := ["A"]]} in
  let graph : gmap string string := {["A" := "a.py"]} in
  let empty : string -> N := fun _ => 0%N in
  let one_byte : string -> N := fun _ => 1%N in
  Scheduler.layers_loop empty nat Examples.run_pool modules node_sccs graph
    16 (Scheduler.init nat) [["A"]]
    = Ok (Scheduler.State (R := nat) {["A"]} [] []) ∧
  Scheduler.resolved graph {["A"]} ["a.py"] ∧
  Partition.process_layer empty nat Examples.run_pool ["a.py"]
    = Raise IndexError ∧
  Scheduler.main_loop empty nat Examples.run_pool modules node_sccs graph
    [["A"]] = Raise IndexError ∧
  Scheduler.main_loop one_byte nat Examples.run_pool modules node_sccs graph
    [["A"]] = Ok (Scheduler.State ∅ [["a.py"]] [1]).
Proof.
  split; [vm_compute; reflexivity|]. split; [vm_compute; reflexivity|].
  split; [vm_compute; reflexivity|]. split; vm_compute; reflexivity.
Qed.

(** ** Shuffle and split *)

Section ChunkFacts.
Import Chunk.
Context {A : Type}.
Implicit Types (x b : list A).

Lemma insert_Permutation_delete x (i : nat) (a : A) :
  i < length x -> <[i := a]> x ≡ₚ a :: delete i x.
Proof.
  intros Hi. rewrite insert_take_drop by done. rewrite delete_take_drop.
  symmetry. apply Permutation_middle.
Qed.

(** Exchanging two elements rearranges the list. *)
Lemma swap_Permutation x (i j : nat) : swap x i j ≡ₚ x.
Proof.
  unfold swap.
  destruct (x !! i) as [a|] eqn:Hi; [|done].
  destruct (x !! j) as [c|] eqn:Hj; [|done].
  pose proof (lookup_lt_Some _ _ _ Hi) as Hli.
  pose proof (lookup_lt_Some _ _ _ Hj) as Hlj.
  set (y := <[i := c]> x).
  assert (Hyj : y !! j = Some c).
  { unfold y. destruct (decide (i = j)) as [->|Hne].
    - by rewrite list_lookup_insert_eq.
    - by rewrite list_lookup_insert_ne. }
  assert (Hy1 : y ≡ₚ c :: delete i x)
    by (by apply insert_Permutation_delete).
  assert (Hx : x ≡ₚ a :: delete i x) by (by apply delete_Permutation).
  assert (Hy2 : y ≡ₚ c :: delete j y) by (by apply delete_Permutation).
  assert (Hz : <[j := a]> y ≡ₚ a :: delete j y).
  { apply insert_Permutation_delete. unfold y. by rewrite length_insert. }
  apply (Permutation_cons_inv (a := c)).
  rewrite Hz, perm_swap, <- Hy2, Hy1, perm_swap, <- Hx. done.
Qed.

Lemma shuffle_from_Permutation (i : nat) :
  ∀ (draws : list nat) x, shuffle_from i draws x ≡ₚ x.
Proof.
  induction i as [|i IH]; intros draws x; simpl; [done|].
  rewrite IH. apply swap_Permutation.
Qed.

Lemma shuffle_Permutation (draws : list nat) x : shuffle draws x ≡ₚ x.
Proof. apply shuffle_from_Permutation. Qed.

(** Consecutive slices between the values of a monotone boundary function
    make up the prefix they cover. *)
Lemma concat_slices b (B : nat -> nat) (n : nat) :
  B 0 = 0 -> (∀ i, B i ≤ B (S i)) ->
  concat ((fun i => slice b (B i) (B (S i))) <$> seq 0 n) = take (B n) b.
Proof.
  intros H0 Hmono. induction n as [|n IH].
  - by rewrite H0, take_0.
  - rewrite seq_S, fmap_app, concat_app, IH. simpl. rewrite app_nil_r.
    unfold slice.
    rewrite <- (take_drop (B n) (take (B (S n)) b)) at 2.
    rewrite take_take, Nat.min_l by apply Hmono. done.
Qed.

Lemma length_slice b (lo hi : nat) :
  hi ≤ length b -> length (slice b lo hi) = hi - lo.
Proof. intros H. unfold slice. rewrite length_drop, length_take. lia. Qed.

(** C10. For a non-empty array and [n >= 1], [chunk_array] returns
    exactly [n] chunks; in order they make up the shuffled array [b], a
    rearrangement of the input, so every element is scheduled exactly
    once; and the lengths of any two chunks differ by at most one. *)
Theorem chunk_array_spec (draws : list nat) (array : list A) (n : nat) :
  array ≠ [] -> 1 ≤ n ->
  ∃ chunks b,
    chunk_array draws array n = Ok chunks ∧
    b ≡ₚ array ∧
    concat chunks = b ∧
    length chunks = n ∧
    (∀ c1 c2, c1 ∈ chunks -> c2 ∈ chunks -> length c1 ≤ length c2 + 1).
Proof.
  intros _ Hn. unfold chunk_array.
  destruct (decide (n = 0)) as [|_]; [lia|].
  set (b := shuffle draws array).
  set (k := length b `div` n). set (m := length b `mod` n).
  assert (Hlen : length b = n * k + m) by (apply Nat.div_mod; lia).
  assert (Hm : m < n) by (apply Nat.mod_upper_bound; lia).
  set (B := fun i => i * k + min i m).
  assert (HB : ∀ i, i ≤ n -> B i ≤ length b).
  { intros i Hi. unfold B. pose proof (Nat.mul_le_mono_r i n k Hi). lia. }
  assert (Hmono : ∀ i, B i ≤ B (S i)) by (intros i; unfold B; lia).
  assert (Hchunks :
    (fun i => slice b (i * k + min i m) ((i + 1) * k + min (i + 1) m))
      <$> seq 0 n
    = (fun i => slice b (B i) (B (S i))) <$> seq 0 n).
  { apply list_fmap_ext. intros _ i _. unfold B. by rewrite Nat.add_1_r. }
  eexists _, b. split; [reflexivity|]. split; [apply shuffle_Permutation|].
  rewrite Hchunks. split; [|split].
  - rewrite concat_slices by (done || (unfold B; lia)).
    apply take_ge. unfold B. lia.
  - by rewrite length_fmap, length_seq.
  - assert (Hlens : ∀ c, c ∈ (fun i => slice b (B i) (B (S i))) <$> seq 0 n ->
                         k ≤ length c ≤ k + 1).
    { intros c Hc. apply list_elem_of_fmap in Hc as (i & -> & Hi).
      apply elem_of_seq in Hi.
      rewrite length_slice by (apply HB; lia). unfold B. lia. }
    intros c1 c2 H1 H2. apply Hlens in H1, H2. lia.
Qed.
End ChunkFacts.

Lemma chunk_array_spec_witness :
  ∃ chunks b,
    Chunk.chunk_array [3; 1; 4] [1; 2; 3; 4; 5; 6; 7] 3 = Ok chunks ∧
    b ≡ₚ [1; 2; 3; 4; 5; 6; 7] ∧
    concat chunks = b ∧
    length chunks = 3 ∧
    (∀ c1 c2, c1 ∈ chunks -> c2 ∈ chunks -> length c1 ≤ length c2 + 1).
Proof.
  apply (chunk_array_spec [3; 1; 4] [1; 2; 3; 4; 5; 6; 7] 3); [done | lia].
Defined.

(** ** The metadata stores *)

Lemma py_int_inject_Z (z : Z) : py_int (inject_Z z) = z.
Proof. unfold py_int. simpl. apply Z.quot_1_r. Qed.

Lemma check_relative_Ok (name : string) :
  isabs name = false -> check_relative name = Ok ().
Proof. unfold check_relative. by intros ->. Qed.

Lemma check_relative_Raise (name : string) :
  isabs name = true -> check_relative name = Raise AssertionError.
Proof. unfold check_relative. by intros ->. Qed.

(** *** Strings and paths *)

Lemma list_ascii_of_string_app (a b : string) :
  list_ascii_of_string (a +:+ b)
    = list_ascii_of_string a ++ list_ascii_of_string b.
Proof. induction a as [|c a IH]; simpl; [done | by rewrite IH]. Qed.

Lemma string_app_assoc (a b c : string) :
  a +:+ b +:+ c = (a +:+ b) +:+ c.
Proof.
  induction a as [|x a IH]; [done|].
  change (String x (a +:+ b +:+ c) = String x ((a +:+ b) +:+ c)).
  by f_equal.
Qed.

Lemma string_length_app (a b : string) :
  String.length (a +:+ b) = String.length a + String.length b.
Proof.
  induction a as [|x a IH]; [done|].
  change (S (String.length (a +:+ b)) = S (String.length a + String.length b)).
  by rewrite IH.
Qed.

(** *** Walking the file tree *)

Section TreeFacts.
Import FilesystemMetadataStore.
Implicit Types (ns : gmap (list string) node) (loc dir : list string).

(** Text without a carriage return is read as it was written. *)
Lemma universal_newlines_id (data : string) :
  has_cr data = false -> universal_newlines data = data.
Proof.
  unfold has_cr. induction data as [|c rest IH]; [done|].
  simpl. intros [Hc Hrest]%orb_false_elim. rewrite Hc. by rewrite IH.
Qed.

Lemma lookup_dir_Ok ns loc :
  lookup_dir ns loc = Ok () ↔ ∃ m, ns !! loc = Some (Dir m).
Proof.
  unfold lookup_dir. destruct (ns !! loc) as [[d m|m]|]; split; try done.
  - by intros [? [=]].
  - by eexists.
  - by intros [? [=]].
Qed.

Lemma app_singleton_ne loc (name : string) : loc ++ [name] ≠ loc.
Proof.
  intros Heq. apply (f_equal length) in Heq.
  rewrite length_app in Heq. simpl in Heq. lia.
Qed.

Lemma lookup_touch_ne now loc loc' ns :
  loc' ≠ loc -> touch now loc ns !! loc' = ns !! loc'.
Proof.
  intros Hne. unfold touch. destruct (ns !! loc) as [[d m|m]|]; try done.
  by rewrite lookup_insert_ne.
Qed.

Lemma dirs_kept_refl ns : dirs_kept ns ns.
Proof. intros loc m Hm. by exists m. Qed.

Lemma dirs_kept_trans ns1 ns2 ns3 :
  dirs_kept ns1 ns2 -> dirs_kept ns2 ns3 -> dirs_kept ns1 ns3.
Proof.
  intros H12 H23 loc m Hm. destruct (H12 _ _ Hm) as [m' Hm']. by eapply H23.
Qed.

Lemma dirs_kept_touch now loc ns : dirs_kept ns (touch now loc ns).
Proof.
  intros l m Hl. unfold touch.
  destruct (ns !! loc) as [[d m0|m0]|] eqn:Hloc; try by eexists.
  destruct (decide (l = loc)) as [->|Hne].
  - rewrite lookup_insert_eq. by eexists.
  - rewrite lookup_insert_ne by done. by eexists.
Qed.

Lemma dirs_kept_insert ns loc (n : node) :
  not_dir ns loc -> dirs_kept ns (<[loc := n]> ns).
Proof.
  intros Hnd l m Hl. destruct (decide (l = loc)) as [->|Hne].
  - by destruct (Hnd m).
  - rewrite lookup_insert_ne by done. by eexists.
Qed.

Lemma dirs_kept_delete ns loc :
  not_dir ns loc -> dirs_kept ns (delete loc ns).
Proof.
  intros Hnd l m Hl. destruct (decide (l = loc)) as [->|Hne].
  - by destruct (Hnd m).
  - rewrite lookup_delete_ne by done. by eexists.
Qed.

Lemma not_dir_touch now l ns loc :
  not_dir ns loc -> not_dir (touch now l ns) loc.
Proof.
  intros Hnd m. unfold touch.
  destruct (ns !! l) as [[d m0|m0]|] eqn:Hl; try apply Hnd.
  destruct (decide (loc = l)) as [->|Hne].
  - by destruct (Hnd m0).
  - rewrite lookup_insert_ne by done. apply Hnd.
Qed.

Lemma not_dir_delete l ns loc :
  not_dir ns loc -> not_dir (delete l ns) loc.
Proof.
  intros Hnd m. destruct (decide (loc = l)) as [->|Hne].
  - by rewrite lookup_delete_eq.
  - rewrite lookup_delete_ne by done. apply Hnd.
Qed.

Lemma not_dir_File ns loc data mtime :
  ns !! loc = Some (File data mtime) -> not_dir ns loc.
Proof. intros Hloc m. by rewrite Hloc. Qed.

Lemma not_dir_None ns loc : ns !! loc = None -> not_dir ns loc.
Proof. intros Hloc m. by rewrite Hloc. Qed.

Lemma dirs_kept_lookup_dir ns ns' loc :
  dirs_kept ns ns' -> lookup_dir ns loc = Ok () -> lookup_dir ns' loc = Ok ().
Proof.
  intros Hk [m Hm]%lookup_dir_Ok. apply lookup_dir_Ok. by eapply Hk.
Qed.

Lemma walk_cons ns loc (name : string) (rest : list string) :
  walk ns loc (name :: rest) = (loc' ← step ns loc name; walk ns loc' rest).
Proof. done. Qed.

(** A step is made from a directory. *)
Lemma step_Ok_dir ns loc (name : string) loc' :
  step ns loc name = Ok loc' -> lookup_dir ns loc = Ok ().
Proof. unfold step. by destruct (lookup_dir ns loc) as [[]|]. Qed.

(** A step to an entry of a directory. *)
Lemma step_entry ns dir (name : string) :
  lookup_dir ns dir = Ok () ->
  name ≠ "" -> name ≠ "." -> name ≠ ".." ->
  ¬ NAME_MAX < String.length name ->
  step ns dir name =
    match ns !! (dir ++ [name]) with
    | Some _ => Ok (dir ++ [name])
    | None => Raise FileNotFoundError
    end.
Proof.
  intros Hd H1 H2 H3 Hlen. unfold step. rewrite Hd. simpl.
  rewrite decide_False by (by intros [|]).
  rewrite decide_False by done. by rewrite decide_False by done.
Qed.

(** What a step gives, by the kind of the name. *)
Lemma step_Ok_inv ns dir (name : string) loc :
  step ns dir name = Ok loc ->
  lookup_dir ns dir = Ok () ∧
  (((name = "" ∨ name = ".") ∧ loc = dir) ∨
   (name = ".." ∧ loc = parent dir) ∨
   (name ≠ "" ∧ name ≠ "." ∧ name ≠ ".." ∧
    ¬ NAME_MAX < String.length name ∧
    loc = dir ++ [name] ∧ is_Some (ns !! (dir ++ [name])))).
Proof.
  intros Hs. pose proof (step_Ok_dir _ _ _ _ Hs) as Hd. split; [done|].
  unfold step in Hs. rewrite Hd in Hs. simpl in Hs.
  destruct (decide (name = "" ∨ name = ".")) as [Hnop|Hnop].
  { left. by injection Hs as <-. }
  destruct (decide (name = "..")) as [Hup|Hup].
  { right; left. by injection Hs as <-. }
  destruct (decide (NAME_MAX < String.length name)) as [|Hlen]; [done|].
  destruct (ns !! (dir ++ [name])) as [n|] eqn:Hn; [|done].
  injection Hs as <-. right; right.
  split; [by intros ->; apply Hnop; left|].
  split; [by intros ->; apply Hnop; right|].
  split; [done|]. split; [done|]. split; [done|]. by exists n.
Qed.

(** A step is made likewise in a tree that has kept the directories and
    has something where the step arrives. *)
Lemma step_kept ns ns' loc (name : string) loc' :
  dirs_kept ns ns' ->
  step ns loc name = Ok loc' ->
  is_Some (ns' !! loc') ->
  step ns' loc name = Ok loc'.
Proof.
  intros Hk Hs Hsome.
  destruct (step_Ok_inv _ _ _ _ Hs)
    as [Hd [[Hnop ->]|[[-> ->]|(H1 & H2 & H3 & Hlen & -> & _)]]];
    apply (dirs_kept_lookup_dir _ _ _ Hk) in Hd.
  - unfold step. rewrite Hd. simpl. by rewrite decide_True.
  - unfold step. by rewrite Hd.
  - rewrite step_entry by done. by destruct Hsome as [n ->].
Qed.

(** A walk that ends at a directory went through directories. *)
Lemma walk_Ok_dir ns (names : list string) loc dir :
  walk ns loc names = Ok dir ->
  lookup_dir ns dir = Ok () -> lookup_dir ns loc = Ok ().
Proof.
  destruct names as [|name rest]; [by intros [= ->]|].
  rewrite walk_cons. destruct (step ns loc name) as [loc'|x] eqn:Hs; [|done].
  intros _ _. by eapply step_Ok_dir.
Qed.

(** A walk to a directory is the same walk in a tree that has kept the
    directories. *)
Lemma walk_kept ns ns' (names : list string) :
  dirs_kept ns ns' ->
  ∀ loc dir,
    walk ns loc names = Ok dir -> lookup_dir ns dir = Ok () ->
    walk ns' loc names = Ok dir.
Proof.
  intros Hk. induction names as [|name rest IH]; intros loc dir Hw Hd;
    [done|].
  rewrite walk_cons in Hw |- *.
  destruct (step ns loc name) as [loc'|x] eqn:Hs; [|done]. simpl in Hw.
  pose proof (walk_Ok_dir _ _ _ _ Hw Hd) as Hd'.
  rewrite (step_kept _ _ _ _ _ Hk Hs).
  - simpl. by apply IH.
  - apply (dirs_kept_lookup_dir _ _ _ Hk), lookup_dir_Ok in Hd'
      as [m Hm]. by rewrite Hm.
Qed.

Lemma resolve_parent_kept wd ns ns' (path : string) dir (name : string) :
  dirs_kept ns ns' ->
  resolve_parent wd ns path = Ok (dir, name) ->
  lookup_dir ns dir = Ok () ->
  resolve_parent wd ns' path = Ok (dir, name).
Proof.
  intros Hk Hr Hd. unfold resolve_parent in Hr |- *.
  destruct (check_path path) as [[]|x]; [|done]. simpl in Hr |- *.
  destruct (walk ns (start wd path) (removelast (components path)))
    as [d|x] eqn:Hw; [|done].
  simpl in Hr. injection Hr as -> <-.
  by rewrite (walk_kept _ _ _ Hk _ _ Hw Hd).
Qed.

Lemma resolve_Ok_inv wd ns (path : string) loc :
  resolve wd ns path = Ok loc ->
  ∃ dir name,
    resolve_parent wd ns path = Ok (dir, name) ∧ step ns dir name = Ok loc.
Proof.
  unfold resolve.
  destruct (resolve_parent wd ns path) as [[dir name]|x]; [|done].
  simpl. intros Hs. by exists dir, name.
Qed.

Lemma resolve_kept wd ns ns' (path : string) loc :
  dirs_kept ns ns' ->
  resolve wd ns path = Ok loc ->
  is_Some (ns' !! loc) ->
  resolve wd ns' path = Ok loc.
Proof.
  intros Hk (dir & name & Hrp & Hs)%resolve_Ok_inv Hsome.
  unfold resolve.
  rewrite (resolve_parent_kept _ _ _ _ _ _ Hk Hrp (step_Ok_dir _ _ _ _ Hs)).
  simpl. by eapply step_kept.
Qed.

Lemma stat_resolve (t : tree) (path : string) loc (n : node) :
  resolve (cwd t) (nodes t) path = Ok loc ->
  nodes t !! loc = Some n ->
  stat t path = Ok n.
Proof. intros Hr Hn. unfold stat. rewrite Hr. simpl. by rewrite Hn. Qed.

Lemma stat_Ok_inv (t : tree) (path : string) (n : node) :
  stat t path = Ok n ->
  ∃ loc, resolve (cwd t) (nodes t) path = Ok loc ∧ nodes t !! loc = Some n.
Proof.
  unfold stat. destruct (resolve (cwd t) (nodes t) path) as [loc|x]; [|done].
  simpl. destruct (nodes t !! loc) as [n'|] eqn:Hn; [|done].
  intros [= <-]. by exists loc.
Qed.

(** *** The system calls *)

(** After [open], the path names a file with the data. *)
Lemma open_write_Ok (fl : bool) now wd (path data : string) ns ns' :
  open_write fl now wd path data ns = Ok ns' ->
  ∃ dir name,
    resolve_parent wd ns' path = Ok (dir, name) ∧
    lookup_dir ns' dir = Ok () ∧
    ns' !! (dir ++ [name]) = Some (File data now).
Proof.
  unfold open_write. destruct (check_path path) as [[]|x]; [|done]. simpl.
  destruct fl; [done|].
  destruct (resolve_parent wd ns path) as [[dir name]|x] eqn:Hrp; [|done].
  simpl. destruct (lookup_dir ns dir) as [[]|x] eqn:Hd; [|done]. simpl.
  destruct (decide (name = "" ∨ name = "." ∨ name = "..")); [done|].
  destruct (decide (NAME_MAX < String.length name)); [done|].
  intros Hopen. exists dir, name.
  assert (Hk : dirs_kept ns ns' ∧
               ns' !! (dir ++ [name]) = Some (File data now)).
  { destruct (ns !! (dir ++ [name])) as [[d m|m]|] eqn:Hn; [|done|];
      injection Hopen as <-; (split; [|apply lookup_insert_eq]).
    - eapply dirs_kept_insert, not_dir_File, Hn.
    - eapply dirs_kept_trans; [apply dirs_kept_touch|].
      by apply dirs_kept_insert, not_dir_touch, not_dir_None. }
  destruct Hk as [Hk Hfile]. split; [|split; [|done]].
  - by eapply resolve_parent_kept.
  - by eapply dirs_kept_lookup_dir.
Qed.

(** After [os.replace], the destination names the file that the source
    named. *)
Lemma os_replace_Ok (fl : bool) now wd (src dst : string) ns ns' :
  os_replace fl now wd src dst ns = Ok ns' ->
  ∃ sdir sname data mtime dloc,
    resolve_parent wd ns src = Ok (sdir, sname) ∧
    ns !! (sdir ++ [sname]) = Some (File data mtime) ∧
    resolve wd ns' dst = Ok dloc ∧
    ns' !! dloc = Some (File data mtime).
Proof.
  unfold os_replace. destruct (check_path src) as [[]|x]; [|done]. simpl.
  destruct (check_path dst) as [[]|x]; [|done]. simpl.
  destruct fl; [done|].
  destruct (resolve_parent wd ns src) as [[sdir sname]|x] eqn:Hsrc; [|done].
  simpl.
  destruct (resolve_parent wd ns dst) as [[ddir dname]|x] eqn:Hdst; [|done].
  simpl. destruct (lookup_dir ns sdir) as [[]|x] eqn:Hsd; [|done]. simpl.
  destruct (lookup_dir ns ddir) as [[]|x] eqn:Hdd; [|done]. simpl.
  destruct (decide (sname = "" ∨ sname = "." ∨ sname = "..")); [done|].
  destruct (decide (NAME_MAX < String.length sname)); [done|].
  destruct (ns !! (sdir ++ [sname])) as [[data mtime|m]|] eqn:Hfile;
    [|done|done].
  destruct (decide (dname = "")) as [|Hd1]; [done|].
  destruct (decide (dname = "." ∨ dname = "..")) as [|Hd2]; [done|].
  destruct (decide (NAME_MAX < String.length dname)) as [|Hlen]; [done|].
  intros Hrep.
  assert (Hnd : not_dir ns (ddir ++ [dname])).
  { intros m Hm. by rewrite Hm in Hrep. }
  assert (Hns' : ns' = <[ddir ++ [dname] := File data mtime]>
                         (touch now ddir
                            (delete (sdir ++ [sname]) (touch now sdir ns)))).
  { destruct (ns !! (ddir ++ [dname])) as [[d m|m]|]; [|done|];
      by injection Hrep as <-. }
  clear Hrep.
  assert (Hk : dirs_kept ns ns').
  { rewrite Hns'.
    eapply dirs_kept_trans; [apply dirs_kept_touch|].
    eapply dirs_kept_trans;
      [apply dirs_kept_delete, not_dir_touch, (not_dir_File _ _ _ _ Hfile)|].
    eapply dirs_kept_trans; [apply dirs_kept_touch|].
    by apply dirs_kept_insert, not_dir_touch, not_dir_delete, not_dir_touch. }
  exists sdir, sname, data, mtime, (ddir ++ [dname]).
  split; [done|]. split; [done|].
  assert (Hlook : ns' !! (ddir ++ [dname]) = Some (File data mtime)).
  { rewrite Hns'. apply lookup_insert_eq. }
  split; [|done]. unfold resolve.
  rewrite (resolve_parent_kept _ _ _ _ _ _ Hk Hdst Hdd). simpl.
  rewrite step_entry; [by rewrite Hlook | | done | | | done].
  - by eapply dirs_kept_lookup_dir.
  - intros ->. apply Hd2. by left.
  - intros ->. apply Hd2. by right.
Qed.

(** After [os.utime], a path that named a file names it with the
    timestamp that the file system has kept. *)
Lemma os_utime_Ok (fl ir : bool) kept wd (path : string) ns ns' loc
    (data : string) (mtime : Q) :
  os_utime fl ir kept wd path ns = Ok ns' ->
  resolve wd ns path = Ok loc ->
  ns !! loc = Some (File data mtime) ->
  resolve wd ns' path = Ok loc ∧ ns' !! loc = Some (File data kept).
Proof.
  unfold os_utime. destruct (has_nul path); [done|]. simpl.
  destruct ir; [|done]. simpl. destruct fl; [done|].
  intros Hut Hr Hloc. rewrite Hr in Hut. simpl in Hut. rewrite Hloc in Hut.
  injection Hut as <-. split; [|apply lookup_insert_eq].
  eapply resolve_kept; [|done|by rewrite lookup_insert_eq].
  eapply dirs_kept_insert, not_dir_File, Hloc.
Qed.

Lemma lookup_touch_delete now l loc ns :
  touch now l (delete loc ns) !! loc = None.
Proof.
  unfold touch.
  destruct (delete loc ns !! l) as [[d m|m]|] eqn:Hl;
    try apply lookup_delete_eq.
  destruct (decide (loc = l)) as [->|Hne].
  - by rewrite lookup_delete_eq in Hl.
  - rewrite lookup_insert_ne by done. apply lookup_delete_eq.
Qed.

(** After [os.remove] has returned, the path names nothing. *)
Lemma os_remove_Ok now wd (path : string) ns ns' :
  os_remove now wd path ns = Ok ns' ->
  resolve wd ns' path = Raise FileNotFoundError ∨
  ∃ loc, resolve wd ns' path = Ok loc ∧ ns' !! loc = None.
Proof.
  unfold os_remove.
  destruct (resolve wd ns path) as [loc|x] eqn:Hr; [|done]. simpl.
  destruct (ns !! loc) as [[data mtime|m]|] eqn:Hloc; [|done|done].
  intros [= <-].
  destruct (resolve_Ok_inv _ _ _ _ Hr) as (dir & name & Hrp & Hs).
  destruct (step_Ok_inv _ _ _ _ Hs) as [Hd Hkind].
  assert (Hk : dirs_kept ns (touch now (parent loc) (delete loc ns))).
  { eapply dirs_kept_trans; [|apply dirs_kept_touch].
    eapply dirs_kept_delete, not_dir_File, Hloc. }
  pose proof (lookup_touch_delete now (parent loc) loc ns) as Hgone.
  pose proof (dirs_kept_lookup_dir _ _ _ Hk Hd) as Hd'.
  unfold resolve. rewrite (resolve_parent_kept _ _ _ _ _ _ Hk Hrp Hd). simpl.
  destruct Hkind as [[Hnop ->]|[[-> ->]|(H1 & H2 & H3 & Hlen & -> & _)]].
  - apply lookup_dir_Ok in Hd as [m Hm]. by rewrite Hm in Hloc.
  - right. exists (parent dir). split; [|done].
    unfold step. by rewrite Hd'.
  - left. rewrite step_entry by done. by rewrite Hgone.
Qed.

Lemma stat_absent (t : tree) (path : string) :
  resolve (cwd t) (nodes t) path = Raise FileNotFoundError ∨
  (∃ loc, resolve (cwd t) (nodes t) path = Ok loc ∧ nodes t !! loc = None) ->
  stat t path = Raise FileNotFoundError.
Proof.
  unfold stat. intros [->|(loc & -> & Hloc)]; [done|]. simpl.
  by rewrite Hloc.
Qed.

Lemma os_remove_absent now wd (path : string) ns :
  resolve wd ns path = Raise FileNotFoundError ∨
  (∃ loc, resolve wd ns path = Ok loc ∧ ns !! loc = None) ->
  os_remove now wd path ns = Raise FileNotFoundError.
Proof.
  unfold os_remove. intros [->|(loc & -> & Hloc)]; [done|]. simpl.
  by rewrite Hloc.
Qed.
End TreeFacts.

(** *** Names in a directory *)

Section PathFacts.
Import FilesystemMetadataStore.
Implicit Types (ns : gmap (list string) node) (loc dir : list string).

Lemma components_nonempty (path : string) : components path ≠ [].
Proof.
  destruct path as [|c rest]; simpl; [done|].
  destruct (Ascii.eqb c "/"); [done|]. by destruct (components rest).
Qed.

(** A slash separates the names before it from the names after it. *)
Lemma components_app_slash (a b : string) :
  components (a +:+ String "/" b) = components a ++ components b.
Proof.
  induction a as [|c a IH]; [done|].
  change (components (String c (a +:+ String "/" b))
          = components (String c a) ++ components b).
  simpl. rewrite IH. destruct (Ascii.eqb c "/"); [done|].
  pose proof (components_nonempty a). by destruct (components a).
Qed.

Lemma components_no_slash (name : string) :
  forallb (fun c => negb (Ascii.eqb c "/")) (list_ascii_of_string name)
    = true ->
  components name = [name].
Proof.
  induction name as [|c rest IH]; [done|]. simpl.
  intros [Hc Hrest]%andb_prop. apply negb_true_iff in Hc.
  by rewrite Hc, IH.
Qed.

Lemma has_nul_app (a b : string) :
  has_nul (a +:+ b) = has_nul a || has_nul b.
Proof.
  unfold has_nul. by rewrite list_ascii_of_string_app, existsb_app.
Qed.

Lemma prefix_empty (s : string) : String.prefix "" s = true.
Proof. by destruct s. Qed.

Lemma prefix_slash_cons (c : Ascii.ascii) (s : string) :
  String.prefix "/" (String c s)
    = if ascii_dec "/" c then true else false.
Proof.
  change (String.prefix "/" (String c s))
    with (if ascii_dec "/" c then String.prefix "" s else false).
  rewrite prefix_empty. done.
Qed.

Lemma prefix_slash_app (a b : string) :
  a ≠ "" -> String.prefix "/" (a +:+ b) = String.prefix "/" a.
Proof.
  destruct a as [|c a]; [done|]. intros _.
  change (String c a +:+ b) with (String c (a +:+ b)).
  by rewrite !prefix_slash_cons.
Qed.

(** A string whose reverse starts with a slash ends with one. *)
Lemma rev_app_slash (s acc : string) :
  String.prefix "/" (String.rev_app s acc) = true ->
  (s = "" ∧ String.prefix "/" acc = true) ∨ ∃ r, s = r +:+ "/".
Proof.
  revert acc. induction s as [|c s IH]; intros acc; simpl; [by left|].
  intros [[-> Hacc]|[r ->]]%IH; right.
  - exists "". rewrite prefix_slash_cons in Hacc.
    by destruct (ascii_dec "/" c) as [<-|].
  - by exists (String c r).
Qed.

Lemma walk_app ns loc (xs ys : list string) :
  walk ns loc (xs ++ ys) = (d ← walk ns loc xs; walk ns d ys).
Proof.
  revert loc. induction xs as [|x xs IH]; intros loc; [done|].
  rewrite <- app_comm_cons, !walk_cons.
  destruct (step ns loc x) as [loc'|e]; simpl; [apply IH | done].
Qed.

(** Resolving a path is walking all its names. *)
Lemma resolve_walk wd ns (path : string) loc :
  resolve wd ns path = Ok loc ->
  check_path path = Ok () ∧
  walk ns (start wd path) (components path) = Ok loc.
Proof.
  unfold resolve, resolve_parent.
  destruct (check_path path) as [[]|e]; [|done]. simpl.
  destruct (walk ns (start wd path) (removelast (components path)))
    as [d|e] eqn:Hw; [|done].
  simpl. intros Hs. split; [done|].
  rewrite (app_removelast_last "" (components_nonempty path)) at 1.
  rewrite walk_app, Hw. simpl. by rewrite Hs.
Qed.

(** In a directory that holds no entry of a plain name, [os.stat] finds
    nothing under that name. *)
Lemma stat_absent_plain (t : tree) (root name : string) dir (m : Q) :
  root ≠ "" ->
  plain name = true ->
  String.length (path_join root name) < PATH_MAX ->
  resolve (cwd t) (nodes t) root = Ok dir ->
  nodes t !! dir = Some (Dir m) ->
  nodes t !! (dir ++ [name]) = None ->
  isabs name = false ∧
  stat t (path_join root name) = Raise FileNotFoundError.
Proof.
  intros Hroot Hplain Hlen Hres Hdir Hnone.
  unfold plain in Hplain.
  apply andb_prop in Hplain as [[Hslash Hnul]%andb_prop Hname].
  apply bool_decide_eq_true in Hname as (Hne & Hdot & Hdots & Hmax).
  apply negb_true_iff in Hnul.
  assert (Hrel : isabs name = false).
  { destruct name as [|c rest]; [done|]. simpl in Hslash.
    apply andb_prop in Hslash as [Hc _]. apply negb_true_iff in Hc.
    unfold isabs. rewrite prefix_slash_cons.
    by destruct (ascii_dec "/" c) as [<-|]. }
  split; [done|].
  destruct (resolve_walk _ _ _ _ Hres) as [Hcheck Hwalk].
  assert (Hd : lookup_dir (nodes t) dir = Ok ()).
  { apply lookup_dir_Ok. by exists m. }
  (* the joined path is the root, then the name as the last one *)
  assert (Hpath : ∃ x pre,
    path_join root name = root +:+ x ∧ has_nul x = false ∧
    components (path_join root name) = pre ++ [name] ∧
    walk (nodes t) (start (cwd t) root) pre = Ok dir).
  { unfold path_join. rewrite Hrel. rewrite decide_False by done.
    destruct (String.prefix "/" (String.rev root)) eqn:Hrev.
    - apply rev_app_slash in Hrev as [[-> _]|[r ->]]; [done|].
      exists name, (components r). split; [done|]. split; [done|].
      rewrite <- string_app_assoc. change ("/" +:+ name) with (String "/" name).
      rewrite components_app_slash, (components_no_slash _ Hslash).
      split; [done|].
      change (r +:+ "/") with (r +:+ String "/" "") in Hwalk.
      rewrite components_app_slash, walk_app in Hwalk. simpl in Hwalk.
      destruct (walk (nodes t) (start (cwd t) (r +:+ String "/" ""))
                  (components r)) as [d0|e] eqn:Hw0; [|done].
      simpl in Hwalk.
      destruct (step (nodes t) d0 "") as [d1|e] eqn:Hs; [|done].
      simpl in Hwalk. injection Hwalk as ->.
      apply step_Ok_inv in Hs as [_ [[_ ->]|[[? _]|(? & _)]]]; done.
    - exists (String "/" name), (components root).
      split; [done|]. split; [done|].
      change ("/" +:+ name) with (String "/" name).
      by rewrite components_app_slash, (components_no_slash _ Hslash). }
  destruct Hpath as (x & pre & Hjoin & Hx & Hcomp & Hpre).
  assert (Hcheck' : check_path (path_join root name) = Ok ()).
  { assert (Hn : has_nul (path_join root name) = false).
    { rewrite Hjoin, has_nul_app, Hx. unfold check_path in Hcheck.
      by destruct (has_nul root). }
    assert (Hne' : path_join root name ≠ "").
    { rewrite Hjoin. by destruct root. }
    unfold check_path. rewrite Hn.
    rewrite decide_False by done. by rewrite decide_False by lia. }
  assert (Hstart : start (cwd t) (path_join root name) = start (cwd t) root).
  { unfold start, isabs. rewrite Hjoin. by rewrite prefix_slash_app. }
  unfold stat, resolve, resolve_parent. rewrite Hcheck'. simpl.
  rewrite Hcomp, removelast_last, last_last, Hstart, Hpre. simpl.
  rewrite step_entry by (done || lia). by rewrite Hnone.
Qed.
End PathFacts.

(** *** The filesystem store *)

Section FilesystemFacts.
Import FilesystemMetadataStore.
Variable root : option string.

Local Abbreviation path_of name := (path_join (prefix_of root) name).

(** A write that reports success was made with a relative name on an
    enabled store, and the entry's path now names a regular file with the
    data, stamped with the explicit [mtime] as the file system keeps it, or
    else with the clock. *)
Lemma fs_write_true (e : env) (name data : string) (mtime : option Q)
    (t t' : tree) :
  write root e name data mtime t = Ok (true, t') ->
  isabs name = false ∧ disabled root = false ∧
  stat t' (path_of name) = Ok (File data (stamp e mtime)).
Proof.
  unfold write, check_relative.
  destruct (isabs name); simpl; [discriminate|].
  destruct (disabled root); [discriminate|].
  unfold write_try, mbind, os_bind.
  destruct (os_makedirs_dirname _ _ _ _ (nodes t)) as [ns1 [[]|x1]];
    [|by destruct (is_OSError x1)].
  unfold syscall at 1.
  destruct (open_write _ _ _ _ _ ns1) as [ns2|x2] eqn:Hopen;
    [|by destruct (is_OSError x2)].
  unfold syscall at 1.
  destruct (os_replace _ _ _ _ _ ns2) as [ns3|x3] eqn:Hrep;
    [|by destruct (is_OSError x3)].
  apply open_write_Ok in Hopen as (dir & tmp & Hrp & Hd & Hfile).
  apply os_replace_Ok in Hrep
    as (sdir & sname & data' & mtime' & dloc & Hsrc & Hfile' & Hr & Hdst).
  rewrite Hrp in Hsrc. injection Hsrc as <- <-.
  rewrite Hfile in Hfile'. injection Hfile' as <- <-.
  destruct mtime as [mtime|]; simpl.
  - unfold syscall.
    destruct (os_utime _ _ _ _ _ ns3) as [ns4|x4] eqn:Hut;
      [|by destruct (is_OSError x4)].
    intros [= <-]. split; [done|]. split; [done|].
    destruct (os_utime_Ok _ _ _ _ _ _ _ _ _ _ Hut Hr Hdst) as [Hr' Hdst'].
    by eapply stat_resolve.
  - intros [= <-]. split; [done|]. split; [done|]. by eapply stat_resolve.
Qed.

(** What the three reading operations answer, by what [os.stat] finds
    at the entry's path. *)
Lemma fs_getmtime_stat (name : string) (t : tree) :
  disabled root = false ->
  getmtime root name t =
    (n ← stat t (path_of name); Ok (inject_Z (py_int (node_mtime n)))).
Proof. intros Hen. unfold getmtime. by rewrite Hen. Qed.

Lemma fs_read_stat (name : string) (t : tree) :
  isabs name = false -> disabled root = false ->
  read root name t =
    (n ← stat t (path_of name);
     match n with
     | File data _ => Ok (universal_newlines data)
     | Dir _ => Raise IsADirectoryError
     end).
Proof.
  intros Hrel Hen. unfold read.
  by rewrite (check_relative_Ok _ Hrel), Hen.
Qed.

Lemma fs_read_absolute (name : string) (t : tree) :
  isabs name = true -> read root name t = Raise AssertionError.
Proof.
  intros Habs. unfold read. by rewrite (check_relative_Raise _ Habs).
Qed.

Lemma fs_remove_stat_Raise (e : env) (name : string) (t : tree) (x : exn) :
  disabled root = false ->
  stat t (path_of name) = Raise x ->
  remove root e name t = Raise x.
Proof.
  intros Hen. unfold remove, stat, os_remove. rewrite Hen.
  destruct (resolve (cwd t) (nodes t) (path_of name)) as [loc|x'];
    simpl; [|by intros [= ->]].
  destruct (nodes t !! loc) as [n|]; [done|]. by intros [= <-].
Qed.

Lemma fs_remove_stat_Dir (e : env) (name : string) (t : tree) (m : Q) :
  disabled root = false ->
  stat t (path_of name) = Ok (Dir m) ->
  remove root e name t = Raise IsADirectoryError.
Proof.
  intros Hen (loc & Hr & Hloc)%stat_Ok_inv.
  unfold remove, os_remove. rewrite Hen, Hr. simpl. by rewrite Hloc.
Qed.

Lemma fs_remove_stat_File (e : env) (name : string) (t : tree)
    (data : string) (m : Q) :
  disabled root = false ->
  stat t (path_of name) = Ok (File data m) ->
  ∃ t', remove root e name t = Ok t'.
Proof.
  intros Hen (loc & Hr & Hloc)%stat_Ok_inv.
  unfold remove, os_remove. rewrite Hen, Hr. simpl. rewrite Hloc. simpl.
  by eexists.
Qed.

(** After a [remove] that has returned, [os.stat] finds nothing at the
    entry's path, and another [remove] raises. *)
Lemma fs_remove_Ok (e : env) (name : string) (t t' : tree) :
  remove root e name t = Ok t' ->
  disabled root = false ∧
  stat t' (path_of name) = Raise FileNotFoundError ∧
  ∀ e', remove root e' name t' = Raise FileNotFoundError.
Proof.
  unfold remove. destruct (disabled root) eqn:Hen; [done|].
  destruct (os_remove (now e) (cwd t) (path_of name) (nodes t))
    as [ns|x] eqn:Hrm; [|done].
  simpl. intros [= <-]. split; [done|].
  apply os_remove_Ok in Hrm. split.
  - by apply stat_absent.
  - intros e'. simpl. by rewrite os_remove_absent.
Qed.
End FilesystemFacts.

(** *** The relational store *)

Section SqliteFacts.
Import SqliteMetadataStore.

Lemma sql_write_true (e : env) (name data : string) (mtime : option Q)
    (db db' : table) :
  write e name data mtime db = Ok (true, db') ->
  ∃ kept,
    real e (default (now e) mtime) = Some kept ∧
    db' = <[name := (kept, data)]> db.
Proof.
  unfold write. destruct (db_error e); [discriminate|].
  replace (match mtime with Some t => t | None => now e end)
    with (default (now e) mtime) by (by destruct mtime).
  destruct (real e (default (now e) mtime)) as [kept|]; [|discriminate].
  intros [= <-]. by exists kept.
Qed.

Lemma sql_list_all_single (name : string) (row : Q * string) (db : table) :
  NoDup (list_all (<[name := row]> db)) ∧
  name ∈ list_all (<[name := row]> db).
Proof.
  unfold list_all. split; [apply NoDup_fst_map_to_list|].
  apply list_elem_of_fmap. exists (name, row). split; [done|].
  apply elem_of_map_to_list, lookup_insert_eq.
Qed.
End SqliteFacts.




(** In the filesystem variant, too, a name can be without an entry and
    [getmtime] return: the directory that a write to a nested name has
    made. *)
Lemma fs_getmtime_directory :
  ∃ w',
    Fs.write (Some "cache") (StoreExamples.linux 1000 "0123456789abcdef" None)
      "pkg/m.py" "x" None StoreExamples.bare = Ok (true, w') ∧
    Fs.getmtime (Some "cache") "pkg" w' = Ok 1000%Q ∧
    Fs.read (Some "cache") "pkg" w' = Raise IsADirectoryError ∧
    Fs.remove (Some "cache") (StoreExamples.linux 1001 "" None) "pkg" w'
      = Raise IsADirectoryError ∧
    Fs.read (Some "cache") "pkg/m.py/n.py" w' = Raise NotADirectoryError.
Proof.
  eexists. split; [reflexivity|]. split; [reflexivity|].
  split; [reflexivity|]. split; reflexivity.
Qed.




(** And so it does in the relational variant: the [REAL] column returns
    1700000000 for an entry written with mtime 1700000001. *)
Lemma sql_getmtime_rounds :
  ∃ db',
    Sql.write (StoreExamples.postgres 1000) "m.py" "x" (Some 1700000001%Q) ∅
      = Ok (true, db') ∧
    Sql.getmtime "m.py" db' = Ok 1700000000%Q ∧
    ¬ (1700000000 == 1700000001)%Q.
Proof.
  eexists. split; [reflexivity|]. split; [reflexivity|].
  unfold Qeq. simpl. lia.
Qed.

(** A timestamp beyond the platform's [time_t] is no [OSError]: [write]
    raises [OverflowError], after the data has been put in place. *)
Lemma fs_write_overflow :
  Fs.write (Some "cache") (StoreExamples.linux 1000 "0123456789abcdef" None)
    "m.py" "x" (Some (inject_Z (10 ^ 30))) StoreExamples.bare
    = Raise OverflowError.
Proof. reflexivity. Qed.

(** C6 (as amended). After a successful write, [read] returns: in the
    filesystem variant the data with every carriage return, and every
    carriage return and line feed in a row, read as one line feed, which
    is the data itself when it holds no carriage return; in the relational
    variant the data itself.  After a [remove] that has returned, [read]
    raises [FileNotFoundError]: in the relational variant, where [remove]
    always returns, for every name; in the filesystem variant for every
    relative name (for an absolute name [read] fails its assertion
    instead). *)
Theorem write_read_remove (root name data : string) (mtime : option Q) :
  (∀ e w w',
     Fs.write (Some root) e name data mtime w = Ok (true, w') ->
     Fs.read (Some root) name w' = Ok (Fs.universal_newlines data)) ∧
  (∀ e w w',
     Fs.has_cr data = false ->
     Fs.write (Some root) e name data mtime w = Ok (true, w') ->
     Fs.read (Some root) name w' = Ok data) ∧
  (∀ e db db',
     Sql.write e name data mtime db = Ok (true, db') ->
     Sql.read name db' = Ok data) ∧
  (∀ e w w',
     isabs name = false ->
     Fs.remove (Some root) e name w = Ok w' ->
     Fs.read (Some root) name w' = Raise FileNotFoundError) ∧
  (∀ db, ∃ db',
     Sql.remove name db = Ok db' ∧
     Sql.read name db' = Raise FileNotFoundError).
Proof.
  assert (Hfs : ∀ e w w',
     Fs.write (Some root) e name data mtime w = Ok (true, w') ->
     Fs.read (Some root) name w' = Ok (Fs.universal_newlines data)).
  { intros e w w' Hw. apply fs_write_true in Hw as (Hrel & Hen & Hstat).
    rewrite fs_read_stat by done. simpl in Hstat |- *. by rewrite Hstat. }
  split; [exact Hfs|]. split; [|split; [|split]].
  - intros e w w' Hcr Hw. rewrite (Hfs _ _ _ Hw).
    by rewrite universal_newlines_id.
  - intros e db db' Hw. apply sql_write_true in Hw as (kept & _ & ->).
    unfold Sql.read. by rewrite lookup_insert_eq.
  - intros e w w' Hrel Hrm. apply fs_remove_Ok in Hrm as (Hen & Hstat & _).
    rewrite fs_read_stat by done. simpl in Hstat |- *. by rewrite Hstat.
  - intros db. eexists. split; [reflexivity|].
    unfold Sql.read. by rewrite lookup_delete_eq.
Qed.

Lemma write_read_remove_witness :
  Fs.write (Some "cache")
    (StoreExamples.linux 1000 "0123456789abcdef" None) "m.py" "x"
    (Some 456%Q) StoreExamples.bare = Ok (true, StoreExamples.written) ∧
  Fs.read (Some "cache") "m.py" StoreExamples.written = Ok "x" ∧
  Fs.remove (Some "cache") (StoreExamples.linux 1001 "" None) "m.py"
    StoreExamples.written = Ok StoreExamples.removed ∧
  Fs.read (Some "cache") "m.py" StoreExamples.removed
    = Raise FileNotFoundError.
Proof.
  destruct (write_read_remove "cache" "m.py" "x" (Some 456%Q))
    as (_ & Hw & _ & Hr & _).
  assert (Hwrite :
    Fs.write (Some "cache")
      (StoreExamples.linux 1000 "0123456789abcdef" None) "m.py" "x"
      (Some 456%Q) StoreExamples.bare = Ok (true, StoreExamples.written))
    by (vm_compute; reflexivity).
  assert (Hremove :
    Fs.remove (Some "cache") (StoreExamples.linux 1001 "" None) "m.py"
      StoreExamples.written = Ok StoreExamples.removed)
    by (vm_compute; reflexivity).
  split; [exact Hwrite|]. split; [|split; [exact Hremove|]].
  - exact (Hw _ _ _ eq_refl Hwrite).
  - exact (Hr _ _ _ eq_refl Hremove).
Defined.

(** C6, the claim as stated fails: in the filesystem variant [remove] of an
    absolute name deletes that file, and the [read] that follows fails the
    assertion on absolute paths rather than raising [FileNotFoundError]. *)
Lemma fs_read_after_remove_absolute :
  ∃ w',
    Fs.remove (Some "cache") (StoreExamples.linux 1000 "" None) "/m.py"
      (Fs.Tree {[ [] := Fs.Dir 0; ["m.py"] := Fs.File "x" 456 ]} [])
      = Ok w' ∧
    Fs.read (Some "cache") "/m.py" w' = Raise AssertionError ∧
    Fs.read (Some "cache") "/m.py" w' ≠ Raise FileNotFoundError.
Proof.
  eexists. split; [reflexivity|]. split; [reflexivity | discriminate].
Qed.

(** It fails for the data as well: written as a carriage return, it is
    read as a line feed. *)
Lemma fs_read_newlines :
  ∃ w',
    Fs.write (Some "cache")
      (StoreExamples.linux 1000 "0123456789abcdef" None) "m.py"
      (String Fs.CR "") None StoreExamples.bare = Ok (true, w') ∧
    Fs.read (Some "cache") "m.py" w' = Ok (String Fs.LF "") ∧
    String Fs.LF "" ≠ String Fs.CR "".
Proof.
  eexists. split; [reflexivity|]. split; [reflexivity | discriminate].
Qed.

(** A cache directory under [os.devnull] gives the store a null root. *)
Lemma init_devnull (cache_dir_prefix : string) :
  String.prefix "/dev/null" cache_dir_prefix = true ->
  Fs.init cache_dir_prefix = None.
Proof. unfold Fs.init. by intros ->. Qed.

(** C8 (as amended). On the filesystem store with a null root, for every
    name [getmtime] and [remove] raise [FileNotFoundError]; for every
    relative name, data and mtime [write] returns [False] and [read] raises
    [FileNotFoundError]; the file tree is never changed.  (For an absolute
    name [write] and [read] fail their assertion before the root is
    looked at.) *)
Theorem null_root_store (root : option string) (e : Fs.env)
    (name data : string) (mtime : option Q) (w : Fs.tree) :
  Fs.disabled root = true ->
  Fs.getmtime root name w = Raise FileNotFoundError ∧
  Fs.remove root e name w = Raise FileNotFoundError ∧
  (isabs name = false ->
     Fs.write root e name data mtime w = Ok (false, w) ∧
     Fs.read root name w = Raise FileNotFoundError) ∧
  (isabs name = true ->
     Fs.write root e name data mtime w = Raise AssertionError ∧
     Fs.read root name w = Raise AssertionError).
Proof.
  intros Hdis.
  unfold Fs.getmtime, Fs.remove, Fs.write, Fs.read.
  rewrite Hdis. split; [done|]. split; [done|].
  split; intros Hname.
  - by rewrite (check_relative_Ok _ Hname).
  - by rewrite (check_relative_Raise _ Hname).
Qed.

Lemma null_root_store_witness :
  Fs.write (Fs.init "/dev/null/1.0")
    (StoreExamples.linux 1000 "0123456789abcdef" None) "m.py" "x" None
    StoreExamples.bare
    = Ok (false, StoreExamples.bare) ∧
  Fs.read (Fs.init "/dev/null/1.0") "m.py" StoreExamples.bare
    = Raise FileNotFoundError.
Proof.
  destruct (null_root_store (Fs.init "/dev/null/1.0")
              (StoreExamples.linux 1000 "0123456789abcdef" None)
              "m.py" "x" None StoreExamples.bare eq_refl)
    as (_ & _ & Hrel & _).
  exact (Hrel eq_refl).
Defined.

(** C8, the claim as stated fails: with a null root, [write] and [read] of
    an absolute name raise [AssertionError]. *)
Lemma null_root_absolute_name :
  Fs.write None
    (StoreExamples.linux 1000 "0123456789abcdef" None) "/m.py" "x" None
    StoreExamples.bare
    = Raise AssertionError ∧
  Fs.read None "/m.py" StoreExamples.bare = Raise AssertionError ∧
  Fs.read None "/m.py" StoreExamples.bare ≠ Raise FileNotFoundError.
Proof. split; [reflexivity|]. split; [reflexivity | discriminate]. Qed.

(** C9. In the relational variant a second successful write to a name
    replaces the name's row: afterwards [read] returns the second data and
    [getmtime] what the [REAL] column has kept for the second mtime (for
    the clock's value if it was omitted), which is the second mtime itself
    when the column keeps that as it is; the name is listed exactly once,
    and every other name is as it was before the two writes. *)
Theorem relational_upsert (e1 e2 : Sql.env) (name d1 d2 : string)
    (m1 m2 : option Q) (db db1 db2 : Sql.table) :
  Sql.write e1 name d1 m1 db = Ok (true, db1) ->
  Sql.write e2 name d2 m2 db1 = Ok (true, db2) ->
  Sql.read name db2 = Ok d2 ∧
  (∃ kept,
     Sql.real e2 (default (Sql.now e2) m2) = Some kept ∧
     Sql.getmtime name db2 = Ok kept) ∧
  (∀ m, m2 = Some m -> Sql.real e2 m = Some m ->
        Sql.getmtime name db2 = Ok m) ∧
  NoDup (Sql.list_all db2) ∧
  name ∈ Sql.list_all db2 ∧
  (∀ other, other ≠ name -> db2 !! other = db !! other).
Proof.
  intros H1 H2.
  apply sql_write_true in H1 as (k1 & _ & ->).
  apply sql_write_true in H2 as (k2 & Hk2 & ->).
  unfold Sql.read, Sql.getmtime.
  rewrite lookup_insert_eq. simpl. split; [done|].
  split; [by exists k2|]. split.
  - intros m -> Hkeep. simpl in Hk2. rewrite Hkeep in Hk2.
    by injection Hk2 as ->.
  - split; [apply sql_list_all_single|].
    split; [apply sql_list_all_single|].
    intros other Hne. by rewrite !lookup_insert_ne.
Qed.

(** The specification's scenario: ["x"] at 123.0, then ["y"] at 456.0. *)
Lemma relational_upsert_witness :
  ∃ db1 db2,
    Sql.write (StoreExamples.postgres 1000) "m.py" "x" (Some 123%Q) ∅
      = Ok (true, db1) ∧
    Sql.write (StoreExamples.postgres 1001) "m.py" "y" (Some 456%Q) db1
      = Ok (true, db2) ∧
    Sql.read "m.py" db2 = Ok "y" ∧
    Sql.getmtime "m.py" db2 = Ok 456%Q.
Proof.
  eexists _, _. split; [reflexivity|]. split; [reflexivity|].
  destruct (relational_upsert (StoreExamples.postgres 1000)
              (StoreExamples.postgres 1001)
              "m.py" "x" "y" (Some 123%Q) (Some 456%Q) ∅ _ _
              eq_refl eq_refl) as (Hr & _ & Hm & _).
  split; [exact Hr | exact (Hm 456%Q eq_refl eq_refl)].
Defined.

(** * Further properties *)

(** ** The greedy fill and its dispatch *)

Lemma greedy_fill_completed_witness :
  ∃ commands idx target,
    Partition.greedy_fill MoreExamples.sizes 2
      ["src/setup.py"; "src/pkg/a.py"; "src/pkg/tests/t.py"]
      = Ok (commands, idx) ∧
    ceil_div (Partition.cost MoreExamples.sizes
                ["src/setup.py"; "src/pkg/a.py"; "src/pkg/tests/t.py"]) 2
      = Ok target ∧
    concat (Partition.units_of <$> Partition.submit_commands commands)
      = ["src/setup.py"; "src/pkg/a.py"; "src/pkg/tests/t.py"] ∧
    (length (Partition.submit_commands commands) ≤ 2)%nat.
Proof.
  destruct (Partition.greedy_fill MoreExamples.sizes 2
              ["src/setup.py"; "src/pkg/a.py"; "src/pkg/tests/t.py"])
    as [[commands idx]|e] eqn:Hfill.
  - destruct (greedy_fill_completed _ _ _ _ _ Hfill)
      as (target & Hc & Hcat & Hlen & _).
    by exists commands, idx, target.
  - vm_compute in Hfill. discriminate Hfill.
Defined.

Section PartitionMore.
Import Partition.
Variable getsize : string -> N.
Variable R : Type.
Variable run_pool : list (list string) -> R.

Local Abbreviation cost := (Partition.cost getsize).
Local Abbreviation mk_command := (Partition.mk_command getsize).
Local Abbreviation fill_step := (Partition.fill_step getsize).
Local Abbreviation fill_loop := (Partition.fill_loop getsize).
Local Abbreviation fill_inv := (Partition.fill_inv getsize).
Local Abbreviation greedy_fill := (Partition.greedy_fill getsize).
Local Abbreviation layer_fill := (Partition.layer_fill getsize).
Local Abbreviation pre_fill := (Partition.pre_fill getsize).
Local Abbreviation layer_partition := (Partition.layer_partition getsize).
Local Abbreviation pre_partition := (Partition.pre_partition getsize).
Local Abbreviation process_layer :=
  (Partition.process_layer getsize R run_pool).
Local Abbreviation pre_main := (Partition.pre_main getsize R run_pool).
Local Abbreviation execute_commands := (Partition.execute_commands R run_pool).

(** The only exception of the loop is the index error. *)
Lemma fill_step_raises (target : N) (st : list command * nat) (p : string)
    (e : exn) :
  fill_step target st p = Raise e -> e = IndexError.
Proof.
  destruct st as [commands idx]. unfold Partition.fill_step, getitem.
  destruct (commands !! idx) as [c|]; simpl; [|by intros [= <-]].
  destruct (commands !! _) as [c'|]; simpl; [discriminate | by intros [= <-]].
Qed.

Lemma fill_loop_raises (target : N) (paths : list string) :
  ∀ (st : list command * nat) (e : exn),
    fill_loop target st paths = Raise e -> e = IndexError.
Proof.
  induction paths as [|p paths IH]; intros st e Hloop; [discriminate|].
  rewrite fill_loop_cons in Hloop.
  destruct (fill_step target st p) as [st1|e1] eqn:Hs; simpl in Hloop.
  - by eapply IH.
  - injection Hloop as <-. by eapply fill_step_raises.
Qed.

Lemma greedy_fill_raises (n : nat) (paths : list string) (e : exn) :
  greedy_fill n paths = Raise e ->
  (n = 0 ∧ e = ZeroDivisionError) ∨ (n ≠ 0 ∧ e = IndexError).
Proof.
  unfold Partition.greedy_fill, ceil_div.
  destruct (decide (n = 0)) as [->|Hn]; simpl.
  - intros [= <-]. by left.
  - intros Hloop. right. split; [done|]. by eapply fill_loop_raises.
Qed.

Lemma concat_nil_filter_nonempty {A : Type} (ls : list (list A)) :
  concat ls = [] -> filter (fun l => l ≠ []) ls = [].
Proof.
  induction ls as [|l ls IH]; [done|]. simpl. intros Hc.
  apply app_eq_nil in Hc as [-> Hc]. rewrite filter_cons.
  destruct (decide ([] ≠ [])) as [Hne|_]; [done | by apply IH].
Qed.

(** A completed fill submits no batch exactly when there was no unit. *)
Lemma submit_commands_nil (n : nat) (paths : list string)
    (commands : list command) (idx : nat) :
  greedy_fill n paths = Ok (commands, idx) ->
  submit_commands commands = [] ↔ paths = [].
Proof.
  intros Hfill.
  destruct (greedy_fill_inv _ _ _ _ _ Hfill) as (target & bs & _ & -> & Hinv).
  destruct Hinv as [_ _ Hseen _ _ _]. rewrite submit_commands_mk. split.
  - intros Hnil. apply fmap_nil_inv in Hnil.
    by rewrite <- Hseen, <- concat_filter_nonempty, Hnil.
  - intros ->. by rewrite (concat_nil_filter_nonempty _ Hseen).
Qed.

Lemma greedy_fill_requested (n : nat) (paths : list string)
    (commands : list command) (idx : nat) :
  greedy_fill n paths = Ok (commands, idx) -> n ≠ 0.
Proof.
  intros Hfill.
  destruct (greedy_fill_inv _ _ _ _ _ Hfill) as (target & bs & Hc & _ & _).
  by apply ceil_div_inv in Hc as [Hn _].
Qed.

Lemma layer_num_procs_0 (paths : list string) :
  layer_num_procs paths = 0 ↔ paths = [].
Proof.
  unfold layer_num_procs. destruct paths; simpl; [done|]. split; [lia|done].
Qed.

(** What [process_layer] does with the outcome of the fill. *)
Lemma process_layer_fill (layer : list string) :
  process_layer layer =
    match layer_fill layer with
    | Ok (commands, _) => execute_commands (submit_commands commands)
    | Raise e => Raise e
    end.
Proof.
  unfold Partition.process_layer, Partition.layer_partition.
  by destruct (layer_fill layer) as [[commands idx]|e].
Qed.

Lemma pre_main_fill (res : list string) :
  pre_main res =
    match pre_fill res with
    | Ok (commands, _) => execute_commands (submit_commands commands)
    | Raise e => Raise e
    end.
Proof.
  unfold Partition.pre_main, Partition.pre_partition.
  by destruct (pre_fill res) as [[commands idx]|e].
Qed.

Lemma execute_commands_Ok (paths_list : list (list string)) :
  paths_list ≠ [] -> execute_commands paths_list = Ok (run_pool paths_list).
Proof.
  intros Hne. unfold Partition.execute_commands.
  destruct (decide (length paths_list = 0)) as [Hl|_]; [|done].
  by destruct paths_list.
Qed.

(** On a layer that is not empty, the only exception is the index error. *)
Lemma process_layer_raises (layer : list string) (e : exn) :
  layer ≠ [] -> process_layer layer = Raise e -> e = IndexError.
Proof.
  intros Hne. rewrite process_layer_fill.
  destruct (layer_fill layer) as [[commands idx]|e'] eqn:Hfill.
  - rewrite execute_commands_Ok
      by (by rewrite (submit_commands_nil _ _ _ _ Hfill)).
    discriminate.
  - intros [= <-].
    apply greedy_fill_raises in Hfill as [[Hn _]|[_ ->]]; [|done].
    by rewrite layer_num_procs_0 in Hn.
Qed.

(** Only the empty layer asks for a division by zero batches. *)
Lemma process_layer_ZeroDivisionError (layer : list string) :
  process_layer layer = Raise ZeroDivisionError ↔ layer = [].
Proof.
  rewrite process_layer_fill.
  destruct (layer_fill layer) as [[commands idx]|e] eqn:Hfill.
  - pose proof (greedy_fill_requested _ _ _ _ Hfill) as Hn.
    rewrite layer_num_procs_0 in Hn.
    rewrite execute_commands_Ok
      by (by rewrite (submit_commands_nil _ _ _ _ Hfill)).
    split; [discriminate | done].
  - apply greedy_fill_raises in Hfill as [[Hn ->]|[Hn ->]];
      rewrite layer_num_procs_0 in Hn; [done|].
    split; [discriminate | done].
Qed.

Lemma pre_main_ValueError (res : list string) :
  pre_main res = Raise ValueError ↔ res = [].
Proof.
  rewrite pre_main_fill.
  destruct (pre_fill res) as [[commands idx]|e] eqn:Hfill.
  - pose proof (submit_commands_nil _ _ _ _ Hfill) as Hnil.
    destruct (decide (res = [])) as [Hres|Hres].
    + by rewrite (proj2 Hnil Hres).
    + rewrite execute_commands_Ok by (by rewrite Hnil).
      split; [discriminate | done].
  - destruct (greedy_fill_raises _ _ _ Hfill) as [[Hn _]|[_ ->]]; [done|].
    split; [discriminate|]. intros ->. vm_compute in Hfill. discriminate Hfill.
Qed.

(** X4. The single-pass script raises [ValueError] exactly when no file was
    found (the pool is asked for zero workers), and no exception other than
    that and [IndexError]; it never divides by zero. *)
Theorem pre_main_errors (res : list string) :
  (pre_main res = Raise ValueError ↔ res = []) ∧
  (∀ e, pre_main res = Raise e -> e = ValueError ∨ e = IndexError).
Proof.
  rewrite pre_main_fill.
  destruct (pre_fill res) as [[commands idx]|e] eqn:Hfill.
  - pose proof (submit_commands_nil _ _ _ _ Hfill) as Hnil.
    destruct (decide (res = [])) as [Hres|Hres].
    + rewrite (proj2 Hnil Hres). split; [done|]. intros e [= <-]. by left.
    + rewrite execute_commands_Ok by (by rewrite Hnil).
      split; [split; [discriminate | done] | discriminate].
  - destruct (greedy_fill_raises _ _ _ Hfill) as [[Hn _]|[_ ->]]; [done|].
    split; [|intros e [= <-]; by right].
    split; [discriminate|]. intros ->. vm_compute in Hfill. discriminate Hfill.
Qed.

(** X2. What a completed fill leaves in [commands]: there are [n] entries
    and [append_idx] is one of them; the size kept with each entry is the
    total size of the paths after its leading ["mypy"]; every entry before
    [append_idx] has reached the target; every entry after it is as it was
    created. *)
Theorem greedy_fill_commands (n : nat) (paths : list string)
    (commands : list command) (idx : nat) :
  greedy_fill n paths = Ok (commands, idx) ->
  ∃ target,
    ceil_div (cost paths) n = Ok target ∧
    length commands = n ∧ idx < n ∧
    (∀ j c, commands !! j = Some c ->
            c.1 = "mypy" :: units_of c.1 ∧ c.2 = cost (units_of c.1)) ∧
    (∀ j c, j < idx -> commands !! j = Some c -> (target ≤ c.2)%N) ∧
    (∀ j c, idx < j -> commands !! j = Some c -> c = (["mypy"], 0%N)).
Proof.
  intros Hfill.
  destruct (greedy_fill_inv _ _ _ _ _ Hfill) as (target & bs & Hc & -> & Hinv).
  destruct Hinv as [Hlen Hidx _ Hlater Hfull _].
  exists target. split; [done|]. rewrite length_fmap.
  split; [done|]. split; [done|]. split; [|split].
  - intros j c Hj. rewrite list_lookup_fmap in Hj.
    destruct (bs !! j) as [ps|]; [|done]. by injection Hj as <-.
  - intros j c Hlt Hj. rewrite list_lookup_fmap in Hj.
    destruct (bs !! j) as [ps|] eqn:Hb; [|done]. injection Hj as <-.
    by apply (Hfull j).
  - intros j c Hlt Hj. rewrite list_lookup_fmap in Hj.
    destruct (bs !! j) as [ps|] eqn:Hb; [|done]. injection Hj as <-.
    by rewrite (Hlater j ps Hlt Hb).
Qed.

(** The submitted batches of a completed fill, in order, are the input. *)
Lemma submit_commands_concat (n : nat) (paths : list string)
    (commands : list command) (idx : nat) :
  greedy_fill n paths = Ok (commands, idx) ->
  concat (units_of <$> submit_commands commands) = paths ∧
  length (submit_commands commands) ≤ n.
Proof.
  intros Hfill.
  destruct (greedy_fill_inv _ _ _ _ _ Hfill) as (target & bs & _ & -> & Hinv).
  destruct Hinv as [Hlen _ Hseen _ _ _]. rewrite submit_commands_mk. split.
  - rewrite <- list_fmap_compose.
    assert (Hid : ∀ l : list (list string),
               (units_of ∘ (fun ps => "mypy" :: ps)) <$> l = l).
    { intros l. induction l as [|a l IHl]; [done|].
      rewrite fmap_cons, IHl. done. }
    by rewrite Hid, concat_filter_nonempty.
  - rewrite length_fmap, <- Hlen. apply length_filter.
Qed.

Lemma greedy_fill_positive (n : nat) (paths : list string) :
  n ≠ 0 ->
  Forall (fun p => (0 < getsize p)%N) paths ->
  ∃ commands idx, greedy_fill n paths = Ok (commands, idx).
Proof.
  intros Hn Hpos.
  destruct (ceil_div_Ok (cost paths) n Hn) as (target & Hc & Htot).
  unfold Partition.greedy_fill. fold (cost paths). rewrite Hc. simpl.
  rewrite (init_commands_mk getsize).
  destruct (fill_loop_pos getsize n target (max_cost getsize paths) paths
              [] _ _ (fill_inv_init getsize n target _ Hn) Hpos
              (getsize_le_max_cost getsize paths)) as [[commands idx] Hloop].
  - unfold Partition.cost at 1. simpl. lia.
  - by exists commands, idx.
Qed.


(** The fill runs out of batches only when one of the files is empty. *)
Lemma process_layer_IndexError (layer : list string) :
  process_layer layer = Raise IndexError ->
  ∃ p, p ∈ layer ∧ getsize p = 0%N.
Proof.
  intros Hrun.
  destruct (decide (Forall (fun p => (0 < getsize p)%N) layer)) as [Hpos|Hex].
  - exfalso. destruct (decide (layer = [])) as [Hnil|Hne].
    + apply process_layer_ZeroDivisionError in Hnil.
      rewrite Hnil in Hrun. discriminate Hrun.
    + destruct (greedy_fill_positive (layer_num_procs layer) layer)
        as (commands & idx & Hfill); [by rewrite layer_num_procs_0 | done |].
      rewrite process_layer_fill in Hrun.
      fold (layer_fill layer) in Hfill. rewrite Hfill in Hrun.
      rewrite execute_commands_Ok in Hrun
        by (by rewrite (submit_commands_nil _ _ _ _ Hfill)).
      discriminate Hrun.
  - apply not_Forall_Exists in Hex; [|apply _].
    apply Exists_exists in Hex as (p & Hin & Hp). exists p.
    split; [done|]. simpl in Hp. lia.
Qed.


(** With a target of zero every step leaves its batch, so the loop runs
    out of batches as soon as there are as many units as batches left. *)
Lemma fill_loop_zero (n : nat) (M : N) (paths : list string) :
  ∀ (seen : list string) (bs : list (list string)) (idx : nat),
    fill_inv n 0 M seen bs idx ->
    Forall (fun p => (getsize p ≤ M)%N) paths ->
    n ≤ idx + length paths ->
    fill_loop 0 (mk_command <$> bs, idx) paths = Raise IndexError.
Proof.
  induction paths as [|p paths IH]; intros seen bs idx Hinv HM Hn.
  - destruct Hinv as [_ Hidx _ _ _ _]. simpl in Hn. lia.
  - apply Forall_cons in HM as [Hp HM]. rewrite fill_loop_cons.
    destruct (fill_step 0 (mk_command <$> bs, idx) p) as [st1|e] eqn:Hs;
      simpl.
    + pose proof Hs as Hs'.
      destruct (fill_step_inv _ _ _ _ _ _ _ _ _ Hinv Hp Hs)
        as (bs1 & idx1 & -> & _ & Hinv1).
      destruct (lookup_lt_is_Some_2 bs idx) as [ps0 H0];
        [destruct Hinv as [Hlen Hidx _ _ _ _]; lia|].
      rewrite (fill_step_units _ _ _ _ _ _ H0) in Hs'.
      rewrite (proj2 (N.leb_le 0 (cost ps0)) (N.le_0_l _)) in Hs'.
      simpl in Hs'.
      destruct (bs !! S idx) as [ps1|]; [|discriminate].
      injection Hs' as _ Hidx1. apply (IH _ _ _ Hinv1 HM).
      simpl in Hn. lia.
    + f_equal. by eapply fill_step_raises.
Qed.

Lemma ceil_div_0 (n : nat) : n ≠ 0 -> ceil_div 0 n = Ok 0%N.
Proof.
  intros Hn. unfold ceil_div. destruct (decide (n = 0)); [done|].
  f_equal. apply N.div_small. lia.
Qed.

(** X6. A non-empty layer whose files are all empty is never dispatched:
    the target is zero and [process_layer] raises [IndexError]. *)
Theorem process_layer_empty_files (layer : list string) :
  layer ≠ [] ->
  cost layer = 0%N ->
  process_layer layer = Raise IndexError.
Proof.
  intros Hne Hzero. rewrite process_layer_fill.
  assert (Hn : layer_num_procs layer ≠ 0) by (by rewrite layer_num_procs_0).
  assert (Hfill : layer_fill layer = Raise IndexError); [|by rewrite Hfill].
  unfold Partition.layer_fill, Partition.greedy_fill. fold (cost layer).
  rewrite Hzero, (ceil_div_0 _ Hn). simpl. rewrite (init_commands_mk getsize).
  eapply (fill_loop_zero _ (max_cost getsize layer) layer []).
  - by apply fill_inv_init.
  - apply getsize_le_max_cost.
  - unfold layer_num_procs. lia.
Qed.

(** The index moves by at most one batch per unit, and not at all while
    the current batch is below the target: with no more units than batches
    left, or exactly as many and the current batch below the target, the
    loop returns. *)
Lemma fill_loop_room (n : nat) (target M : N) (paths : list string) :
  ∀ (seen : list string) (bs : list (list string)) (idx : nat),
    fill_inv n target M seen bs idx ->
    Forall (fun p => (getsize p ≤ M)%N) paths ->
    idx + length paths < n ∨
      (idx + length paths = n ∧
       ∃ ps, bs !! idx = Some ps ∧ (cost ps < target)%N) ->
    ∃ st', fill_loop target (mk_command <$> bs, idx) paths = Ok st'.
Proof.
  induction paths as [|p paths IH]; intros seen bs idx Hinv HM Hroom;
    [by eexists|].
  apply Forall_cons in HM as [Hp HM]. rewrite fill_loop_cons.
  destruct (lookup_lt_is_Some_2 bs idx) as [ps0 H0];
    [destruct Hinv as [Hlen Hidx _ _ _ _]; lia|].
  pose proof (fill_step_units getsize target bs idx ps0 p H0) as Hs.
  simpl in Hs, Hroom.
  assert (Hstep : ∃ bs1 idx1,
             fill_step target (mk_command <$> bs, idx) p
               = Ok (mk_command <$> bs1, idx1) ∧
             idx1 + length paths < n).
  { destruct (N.leb_spec target (cost ps0)) as [Hge|Hlt].
    - destruct Hroom as [Hroom|(_ & ps & Hps & Hlt)];
        [|rewrite H0 in Hps; injection Hps as <-; lia].
      destruct (lookup_lt_is_Some_2 bs (S idx)) as [ps1 H1];
        [destruct Hinv as [Hlen _ _ _ _ _]; lia|].
      rewrite H1 in Hs. eexists _, _. split; [exact Hs | lia].
    - rewrite H0 in Hs. eexists _, _. split; [exact Hs | lia]. }
  destruct Hstep as (bs1 & idx1 & Hs1 & Hroom1). rewrite Hs1. simpl.
  destruct (fill_step_inv _ _ _ _ _ _ _ _ _ Hinv Hp Hs1)
    as (bs2 & idx2 & Heq & _ & Hinv2).
  rewrite Heq. apply (IH _ _ _ Hinv2 HM). left.
  injection Heq as _ <-. exact Hroom1.
Qed.

Lemma greedy_fill_few (n : nat) (paths : list string) :
  length paths ≤ n ->
  (0 < cost paths)%N ->
  ∃ commands idx, greedy_fill n paths = Ok (commands, idx).
Proof.
  intros Hlen Hpos.
  assert (Hn : n ≠ 0).
  { destruct paths; [unfold Partition.cost in Hpos; simpl in Hpos; lia|].
    simpl in Hlen. lia. }
  destruct (ceil_div_Ok (cost paths) n Hn) as (target & Hc & Htot).
  unfold Partition.greedy_fill. fold (cost paths). rewrite Hc. simpl.
  rewrite (init_commands_mk getsize).
  destruct (fill_loop_room n target (max_cost getsize paths) paths
              [] _ _ (fill_inv_init getsize n target _ Hn)
              (getsize_le_max_cost getsize paths)) as [[commands idx] Hloop].
  - destruct (decide (length paths = n)) as [Heq|Hne]; [right | left; lia].
    split; [done|]. exists []. split.
    + apply lookup_replicate_2. lia.
    + unfold Partition.cost at 1. simpl.
      destruct (N.eq_dec target 0%N) as [->|Ht]; lia.
  - by exists commands, idx.
Qed.

(** X7. When the files are not all empty and there are no more of them
    than batches are requested for, the fill cannot run out of batches:
    [process_layer] dispatches every layer of at most sixteen such files,
    and the single-pass script every list of at most eight. *)
Theorem few_units_dispatched (paths : list string) :
  (0 < cost paths)%N ->
  (length paths ≤ 16 ->
     ∃ batches, layer_partition paths = Ok batches ∧
                process_layer paths = Ok (run_pool batches) ∧
                concat (units_of <$> batches) = paths) ∧
  (length paths ≤ 8 ->
     ∃ batches, pre_partition paths = Ok batches ∧
                pre_main paths = Ok (run_pool batches) ∧
                concat (units_of <$> batches) = paths).
Proof.
  intros Hpos.
  assert (Hne : paths ≠ []).
  { intros ->. unfold Partition.cost in Hpos. simpl in Hpos. lia. }
  split; intros Hlen.
  - destruct (greedy_fill_few (layer_num_procs paths) paths)
      as (commands & idx & Hfill); [unfold layer_num_procs; lia | done |].
    exists (submit_commands commands).
    destruct (submit_commands_concat _ _ _ _ Hfill) as [Hcat _].
    rewrite process_layer_fill. unfold Partition.layer_partition.
    fold (layer_fill paths) in Hfill. rewrite Hfill. simpl.
    split; [done|]. split; [|done]. apply execute_commands_Ok.
    by rewrite (submit_commands_nil _ _ _ _ Hfill).
  - destruct (greedy_fill_few pre_num_procs paths)
      as (commands & idx & Hfill); [unfold pre_num_procs; lia | done |].
    exists (submit_commands commands).
    destruct (submit_commands_concat _ _ _ _ Hfill) as [Hcat _].
    rewrite pre_main_fill. unfold Partition.pre_partition.
    fold (pre_fill paths) in Hfill. rewrite Hfill. simpl.
    split; [done|]. split; [|done]. apply execute_commands_Ok.
    by rewrite (submit_commands_nil _ _ _ _ Hfill).
Qed.
Lemma pre_main_positive (res : list string) :
  res ≠ [] ->
  Forall (fun p => (0 < getsize p)%N) res ->
  ∃ batches,
    pre_main res = Ok (run_pool batches) ∧
    concat (units_of <$> batches) = res ∧
    batches ≠ [] ∧ length batches ≤ 8.
Proof.
  intros Hne Hpos.
  destruct (greedy_fill_positive pre_num_procs res)
    as (commands & idx & Hfill); [done | done |].
  exists (submit_commands commands).
  destruct (submit_commands_concat _ _ _ _ Hfill) as [Hcat Hlen].
  assert (Hsub : submit_commands commands ≠ [])
    by (by rewrite (submit_commands_nil _ _ _ _ Hfill)).
  rewrite pre_main_fill. fold (pre_fill res) in Hfill. rewrite Hfill.
  split; [by apply execute_commands_Ok|]. by repeat split.
Qed.

End PartitionMore.

Lemma greedy_fill_commands_witness :
  ∃ commands idx target,
    Partition.greedy_fill MoreExamples.sizes 2
      ["src/setup.py"; "src/pkg/a.py"; "src/pkg/tests/t.py"]
      = Ok (commands, idx) ∧
    ceil_div (Partition.cost MoreExamples.sizes
                ["src/setup.py"; "src/pkg/a.py"; "src/pkg/tests/t.py"]) 2
      = Ok target ∧
    length commands = 2 ∧ idx < 2 ∧
    (∀ j c, j < idx -> commands !! j = Some c -> (target ≤ c.2)%N).
Proof.
  destruct (Partition.greedy_fill MoreExamples.sizes 2
              ["src/setup.py"; "src/pkg/a.py"; "src/pkg/tests/t.py"])
    as [[commands idx]|e] eqn:Hfill.
  - destruct (greedy_fill_commands _ _ _ _ _ Hfill)
      as (target & Hc & Hlen & Hidx & _ & Hfull & _).
    by exists commands, idx, target.
  - vm_compute in Hfill. discriminate Hfill.
Defined.


Lemma process_layer_empty_files_witness :
  Partition.process_layer (fun _ => 0%N) nat Examples.run_pool
    ["pkg/__init__.py"; "pkg/sub/__init__.py"] = Raise IndexError.
Proof.
  apply (process_layer_empty_files (fun _ => 0%N) nat Examples.run_pool
           ["pkg/__init__.py"; "pkg/sub/__init__.py"]).
  - discriminate.
  - reflexivity.
Defined.

Lemma few_units_dispatched_witness :
  ∃ batches,
    Partition.pre_partition Examples.empty_init_sizes
      ["pkg/__init__.py"; "pkg/m.py"; "pkg/__init__.py"] = Ok batches ∧
    Partition.pre_main Examples.empty_init_sizes nat Examples.run_pool
      ["pkg/__init__.py"; "pkg/m.py"; "pkg/__init__.py"]
      = Ok (Examples.run_pool batches) ∧
    concat (Partition.units_of <$> batches)
      = ["pkg/__init__.py"; "pkg/m.py"; "pkg/__init__.py"].
Proof.
  apply (few_units_dispatched Examples.empty_init_sizes nat Examples.run_pool
           ["pkg/__init__.py"; "pkg/m.py"; "pkg/__init__.py"]).
  - reflexivity.
  - simpl. lia.
Defined.

(** ** The accumulation loop, continued *)

Section SchedulerMore.
Import Scheduler.
Variable getsize : string -> N.
Variable R : Type.
Variable run_pool : list (list string) -> R.
Variable modules : gset string.
Variable node_sccs : gmap string (list string).
Variable graph : gmap string string.

Local Abbreviation flush := (Scheduler.flush getsize R run_pool graph).
Local Abbreviation layer_step :=
  (Scheduler.layer_step getsize R run_pool modules node_sccs graph).
Local Abbreviation layers_loop :=
  (Scheduler.layers_loop getsize R run_pool modules node_sccs graph).
Local Abbreviation accumulate :=
  (Scheduler.accumulate getsize R run_pool modules node_sccs graph).
Local Abbreviation main_loop :=
  (Scheduler.main_loop getsize R run_pool modules node_sccs graph).
Local Abbreviation layer_units := (Scheduler.layer_units modules node_sccs).
Local Abbreviation node_paths := (Scheduler.node_paths graph).
Local Abbreviation resolved := (Scheduler.resolved graph).
Local Abbreviation dispatched := (Scheduler.dispatched getsize R run_pool).

(** X11. The units a layer contributes are the modules of the run that are
    members of a node of the layer, as far as [node_sccs] lists the node;
    nodes it does not list, and members that are not modules of the run,
    contribute nothing. *)
Theorem layer_units_spec (layer : list string) (u : string) :
  u ∈ layer_units layer ↔
  u ∈ modules ∧
  ∃ node mods, node ∈ layer ∧ node_sccs !! node = Some mods ∧ u ∈ mods.
Proof.
  unfold Scheduler.layer_units. rewrite elem_of_intersection, elem_of_union_list.
  split.
  - intros [(X & HX & Hu) Hm]. split; [done|].
    apply list_elem_of_fmap in HX as (node & -> & Hnode).
    apply elem_of_elements, elem_of_list_to_set in Hnode.
    destruct (node_sccs !! node) as [mods|] eqn:Hs; [|set_solver].
    exists node, mods. by rewrite elem_of_list_to_set in Hu.
  - intros (Hm & node & mods & Hnode & Hs & Hu). split; [|done].
    exists (list_to_set mods). split; [|by apply elem_of_list_to_set].
    apply list_elem_of_fmap. exists node. rewrite Hs. split; [done|].
    by apply elem_of_elements, elem_of_list_to_set.
Qed.

(** Resolving paths keeps the number of units and fails only on a module
    the graph does not know. *)
Lemma node_paths_length (nodes paths : list string) :
  node_paths nodes = Ok paths -> length paths = length nodes.
Proof.
  revert paths. induction nodes as [|node nodes IH]; intros paths; simpl.
  - by intros [= <-].
  - destruct (Scheduler.node_path graph node) as [p|e]; simpl; [|discriminate].
    destruct (node_paths nodes) as [ps|e]; simpl; [|discriminate].
    intros [= <-]. simpl. by rewrite (IH ps).
Qed.

Lemma node_paths_raises (nodes : list string) (e : exn) :
  node_paths nodes = Raise e -> e = KeyError.
Proof.
  induction nodes as [|node nodes IH]; simpl; [discriminate|].
  unfold Scheduler.node_path.
  destruct (graph !! node) as [p|]; simpl; [|by intros [= <-]].
  destruct (node_paths nodes) as [ps|e']; simpl; [discriminate|].
  intros [= <-]. by apply IH.
Qed.

Lemma resolved_length (g : gset string) (paths : list string) :
  resolved g paths -> length paths = size g.
Proof. intros Hres. by apply node_paths_length in Hres. Qed.

(** A flush of a pending set that is not empty raises nothing but
    [KeyError] and [IndexError]. *)
Lemma flush_raises (s : state R) (e : exn) :
  curr_inters s ≠ ∅ -> flush s = Raise e -> e = KeyError ∨ e = IndexError.
Proof.
  intros Hne. unfold Scheduler.flush.
  destruct (node_paths (elements (curr_inters s))) as [paths|e'] eqn:Hp;
    simpl.
  - destruct (Partition.process_layer getsize R run_pool paths)
      as [r|e'] eqn:Hr; simpl; [discriminate|].
    intros [= <-]. right. eapply process_layer_raises; [|exact Hr].
    apply node_paths_length in Hp. intros ->. simpl in Hp.
    symmetry in Hp. apply nil_length_inv, elements_empty_inv in Hp.
    by apply leibniz_equiv in Hp.
  - intros [= <-]. left. by eapply node_paths_raises.
Qed.

Lemma layers_loop_raises (threshold : nat) (layers : list (list string)) :
  0 < threshold ->
  ∀ (s : state R) (e : exn),
    layers_loop threshold s layers = Raise e ->
    e = KeyError ∨ e = IndexError.
Proof.
  intros Hthr. induction layers as [|layer rest IH]; intros s e Hloop;
    [discriminate|].
  change (Scheduler.layers_loop getsize R run_pool modules node_sccs graph
            threshold s (layer :: rest))
    with (s1 ← layer_step threshold s layer; layers_loop threshold s1 rest)
    in Hloop.
  destruct (layer_step threshold s layer) as [s1|e1] eqn:Hstep;
    simpl in Hloop.
  - by eapply IH.
  - injection Hloop as <-. unfold Scheduler.layer_step in Hstep.
    simpl in Hstep.
    destruct (decide (threshold ≤ size (curr_inters s ∪ layer_units layer)))
      as [Hle|_]; [|discriminate].
    eapply flush_raises; [|exact Hstep]. simpl. intros He.
    rewrite He, size_empty in Hle. lia.
Qed.

(** Where the exceptions of a flush come from: a [KeyError] from a
    pending module that the graph does not know, an [IndexError] from a
    pending module whose file is empty. *)
Lemma node_paths_KeyError (nodes : list string) (e : exn) :
  node_paths nodes = Raise e ->
  ∃ node, node ∈ nodes ∧ graph !! node = None.
Proof.
  induction nodes as [|node nodes IH]; simpl; [discriminate|].
  unfold Scheduler.node_path.
  destruct (graph !! node) as [p|] eqn:Hnode; simpl.
  - destruct (node_paths nodes) as [ps|e']; simpl; [discriminate|].
    intros He. destruct (IH He) as (n & Hn & Hg).
    exists n. split; [by right | done].
  - intros _. exists node. split; [by left | done].
Qed.

Lemma node_paths_elem (nodes paths : list string) (path : string) :
  node_paths nodes = Ok paths -> path ∈ paths ->
  ∃ node, node ∈ nodes ∧ graph !! node = Some path.
Proof.
  revert paths. induction nodes as [|node nodes IH]; intros paths; simpl.
  - intros [= <-] Hin. by apply elem_of_nil in Hin.
  - unfold Scheduler.node_path.
    destruct (graph !! node) as [p|] eqn:Hnode; simpl; [|discriminate].
    destruct (node_paths nodes) as [ps|e']; simpl; [|discriminate].
    intros [= <-] [->|Hin]%elem_of_cons.
    + exists node. split; [by left | done].
    + destruct (IH ps eq_refl Hin) as (n & Hn & Hg).
      exists n. split; [by right | done].
Qed.

Lemma flush_raises_from (s : state R) (e : exn) :
  flush s = Raise e ->
  (e = KeyError ->
     ∃ node, node ∈ curr_inters s ∧ graph !! node = None) ∧
  (e = IndexError ->
     ∃ node path,
       node ∈ curr_inters s ∧ graph !! node = Some path ∧
       getsize path = 0%N).
Proof.
  unfold Scheduler.flush.
  destruct (node_paths (elements (curr_inters s))) as [paths|e'] eqn:Hp;
    simpl.
  - destruct (Partition.process_layer getsize R run_pool paths)
      as [r|e'] eqn:Hr; simpl; [discriminate|].
    intros [= <-]. split; intros ->.
    + destruct (decide (paths = [])) as [->|Hne].
      * vm_compute in Hr. discriminate Hr.
      * by apply process_layer_raises in Hr.
    + apply process_layer_IndexError in Hr as (path & Hin & Hzero).
      destruct (node_paths_elem _ _ _ Hp Hin) as (node & Hnode & Hg).
      exists node, path. split; [by apply elem_of_elements|done].
  - intros [= <-]. pose proof (node_paths_raises _ _ Hp) as ->.
    split; [|discriminate]. intros _.
    destruct (node_paths_KeyError _ _ Hp) as (node & Hnode & Hg).
    exists node. split; [by apply elem_of_elements | done].
Qed.

Lemma layer_units_modules (layer : list string) : layer_units layer ⊆ modules.
Proof. unfold Scheduler.layer_units. set_solver. Qed.

Lemma layers_loop_raises_from (threshold : nat)
    (layers : list (list string)) :
  ∀ (s : state R) (e : exn),
    curr_inters s ⊆ modules ->
    layers_loop threshold s layers = Raise e ->
    (e = KeyError -> ∃ node, node ∈ modules ∧ graph !! node = None) ∧
    (e = IndexError ->
       ∃ node path,
         node ∈ modules ∧ graph !! node = Some path ∧ getsize path = 0%N).
Proof.
  induction layers as [|layer rest IH]; intros s e Hsub Hloop;
    [discriminate|].
  change (Scheduler.layers_loop getsize R run_pool modules node_sccs graph
            threshold s (layer :: rest))
    with (s1 ← layer_step threshold s layer; layers_loop threshold s1 rest)
    in Hloop.
  pose proof (layer_units_modules layer) as Hunits.
  destruct (layer_step threshold s layer) as [s1|e1] eqn:Hstep;
    simpl in Hloop.
  - eapply IH; [|exact Hloop].
    apply layer_step_Ok in Hstep as [(_ & paths & r & _ & _ & ->)|(_ & ->)];
      simpl; set_solver.
  - injection Hloop as <-. unfold Scheduler.layer_step in Hstep.
    simpl in Hstep.
    destruct (decide (threshold ≤ size (curr_inters s ∪ layer_units layer)))
      as [Hle|_]; [|discriminate].
    apply flush_raises_from in Hstep as [Hkey Hidx]. simpl in Hkey, Hidx.
    split.
    + intros He. destruct (Hkey He) as (node & Hnode & Hg).
      exists node. split; [set_solver | done].
    + intros He. destruct (Hidx He) as (node & path & Hnode & Hg & Hz).
      exists node, path. split; [set_solver | done].
Qed.

Lemma layers_loop_pending (threshold : nat) (layers : list (list string)) :
  ∀ s s' : state R,
    curr_inters s ⊆ modules ->
    layers_loop threshold s layers = Ok s' ->
    curr_inters s' ⊆ modules.
Proof.
  induction layers as [|layer rest IH]; intros s s' Hsub Hloop.
  - by injection Hloop as <-.
  - change (Scheduler.layers_loop getsize R run_pool modules node_sccs graph
              threshold s (layer :: rest))
      with (s1 ← layer_step threshold s layer; layers_loop threshold s1 rest)
      in Hloop.
    pose proof (layer_units_modules layer) as Hunits.
    destruct (layer_step threshold s layer) as [s1|e1] eqn:Hstep;
      simpl in Hloop; [|discriminate].
    eapply IH; [|exact Hloop].
    apply layer_step_Ok in Hstep as [(_ & paths & r & _ & _ & ->)|(_ & ->)];
      simpl; set_solver.
Qed.


(** The log of a run that returns, against the specification's flushes. *)
Lemma accumulate_log (threshold : nat) (layers : list (list string))
    (s : state R) :
  accumulate threshold layers = Ok s ->
  Forall2 resolved (spec_flushes threshold ∅ (layer_units <$> layers))
    (proc_sets s) ∧
  Forall2 dispatched (proc_sets s) (result_list s).
Proof.
  intros Hrun. unfold Scheduler.accumulate in Hrun.
  destruct (layers_loop threshold (init R) layers) as [s1|e] eqn:Hloop;
    simpl in Hrun; [|discriminate].
  destruct (layers_loop_spec _ _ _ _ _ _ _ _ _ _ Hloop)
    as (gs & pss & rs & Hp & Hr & Hgs & Hrs & Hspec).
  simpl in Hp, Hr, Hspec.
  destruct (decide (0 < size (curr_inters s1))) as [Hpos|Hz].
  - apply flush_Ok in Hrun as (paths & r & Hres & Hdis & ->). simpl.
    rewrite decide_False in Hspec
      by (intros He; rewrite He, size_empty in Hpos; lia).
    rewrite Hspec, Hp, Hr.
    split; (apply Forall2_app; [done | by constructor]).
  - injection Hrun as <-.
    assert (He : curr_inters s1 = ∅).
    { apply leibniz_equiv, size_empty_iff. lia. }
    rewrite decide_True in Hspec by done. rewrite app_nil_r in Hspec.
    by rewrite Hspec, Hp, Hr.
Qed.

Lemma spec_flushes_nonempty (threshold : nat)
    (contribs : list (gset string)) :
  0 < threshold ->
  ∀ pending, Forall (fun g => g ≠ ∅) (spec_flushes threshold pending contribs).
Proof.
  intros Hthr. induction contribs as [|c rest IH]; intros pending; simpl.
  - destruct (decide (pending = ∅)); by repeat constructor.
  - destruct (decide (threshold ≤ size (pending ∪ c))) as [Hle|_]; [|apply IH].
    constructor; [|apply IH]. intros He. rewrite He, size_empty in Hle. lia.
Qed.

(** X13. In a run that returns, every flush was dispatched with at least one
    path and has its own entry in [result_list]; and every flush but the
    last with at least [threshold] paths, so that under the script's
    threshold the partitioner is asked for sixteen batches each time but
    the last. *)
Theorem accumulate_flush_sizes (threshold : nat)
    (layers : list (list string)) (s : state R) :
  0 < threshold ->
  accumulate threshold layers = Ok s ->
  length (result_list s) = length (proc_sets s) ∧
  Forall (fun paths => paths ≠ []) (proc_sets s) ∧
  (∀ pss last, proc_sets s = pss ++ [last] ->
     Forall (fun paths => threshold ≤ length paths) pss) ∧
  (threshold = 16 ->
     ∀ pss last, proc_sets s = pss ++ [last] ->
       Forall (fun paths => Partition.layer_num_procs paths = 16) pss).
Proof.
  intros Hthr Hrun. destruct (accumulate_log _ _ _ Hrun) as [Hres Hdis].
  assert (Hsizes : ∀ pss last, proc_sets s = pss ++ [last] ->
            Forall (fun paths => threshold ≤ length paths) pss).
  { intros pss last Heq. rewrite Heq in Hres.
    apply Forall2_app_inv_r in Hres as (gs & gl & Hgs & Hgl & Hspec).
    apply Forall2_length in Hgl as Hlen. destruct gl as [|g [|? ?]]; try done.
    apply spec_flushes_sizes in Hspec as [Hbig _].
    clear -Hgs Hbig. induction Hgs as [|g paths gs pss Hg _ IH];
      [constructor|].
    apply Forall_cons in Hbig as [Hb Hbig]. constructor; [|by apply IH].
    by rewrite (resolved_length _ _ Hg). }
  split; [symmetry; by eapply Forall2_length|]. split; [|split; [done|]].
  - pose proof (spec_flushes_nonempty threshold (layer_units <$> layers)
                  Hthr ∅) as Hne.
    clear -Hres Hne. induction Hres as [|g paths gs pss Hg _ IH];
      [constructor|].
    apply Forall_cons in Hne as [Hg0 Hne]. constructor; [|by apply IH].
    intros ->. apply resolved_length in Hg. simpl in Hg. symmetry in Hg.
    apply size_empty_iff in Hg. by apply leibniz_equiv in Hg.
  - intros -> pss last Heq. eapply Forall_impl; [by eapply Hsizes|].
    intros paths Hp. unfold Partition.layer_num_procs. simpl in Hp. lia.
Qed.

(** X14. The loop returns exactly when each flush the specification's
    scheduler makes can be resolved through the graph and dispatched. *)
Theorem accumulate_returns_iff (threshold : nat)
    (layers : list (list string)) :
  (∃ s, accumulate threshold layers = Ok s) ↔
  (∀ g, g ∈ spec_flushes threshold ∅ (layer_units <$> layers) ->
        ∃ paths r, resolved g paths ∧ dispatched paths r).
Proof.
  split; [|apply accumulate_returns].
  intros [s Hrun] g Hg. destruct (accumulate_log _ _ _ Hrun) as [Hres Hdis].
  apply list_elem_of_lookup in Hg as [i Hi].
  destruct (Forall2_lookup_l _ _ _ _ _ Hres Hi) as (paths & Hp & Hgp).
  destruct (Forall2_lookup_l _ _ _ _ _ Hdis Hp) as (r & _ & Hpr).
  by exists paths, r.
Qed.
End SchedulerMore.

(** ** Shuffle and split, continued *)

Section ChunkMore.
Import Chunk.
Context {A : Type}.
Implicit Types (array b : list A).

Lemma length_shuffle (draws : list nat) array :
  length (shuffle draws array) = length array.
Proof. apply Permutation_length, shuffle_Permutation. Qed.

(** The chunk boundaries: chunk [i] starts at [bound k m i]. *)
Local Abbreviation bound k m := (fun i => i * k + min i m).

Lemma chunk_array_Ok (draws : list nat) array (n : nat) :
  n ≠ 0 ->
  let b := shuffle draws array in
  let k := length array `div` n in
  let m := length array `mod` n in
  chunk_array draws array n
    = Ok ((fun i => slice b (bound k m i) (bound k m (S i))) <$> seq 0 n) ∧
  length array = n * k + m ∧ m < n.
Proof.
  intros Hn b k m. unfold chunk_array.
  destruct (decide (n = 0)) as [|_]; [done|].
  rewrite length_shuffle. subst b k m. split; [|split].
  - f_equal. apply list_fmap_ext. intros _ i _. simpl.
    by rewrite Nat.add_1_r.
  - apply Nat.div_mod. lia.
  - apply Nat.mod_upper_bound. lia.
Qed.

(** X15. The exact chunk sizes.  With [q] and [r] the quotient and remainder
    of the array's length by [n], chunk [i] has [q + 1] elements for
    [i < r] and [q] for the others; so when there are fewer elements than
    chunks, every chunk from index [len(array)] on is empty. *)
Theorem chunk_array_lengths (draws : list nat) array (n : nat) :
  1 ≤ n ->
  ∃ chunks,
    chunk_array draws array n = Ok chunks ∧
    (∀ i, i < n ->
       ∃ c, chunks !! i = Some c ∧
            length c = length array `div` n
                       + (if decide (i < length array `mod` n) then 1 else 0)) ∧
    (length array < n ->
       ∀ i c, length array ≤ i -> chunks !! i = Some c -> c = []).
Proof.
  intros Hn.
  destruct (chunk_array_Ok draws array n) as (Hchunks & Hlen & Hm); [lia|].
  set (k := length array `div` n) in *. set (m := length array `mod` n) in *.
  set (b := shuffle draws array) in *.
  assert (Hb : length b = length array) by apply length_shuffle.
  assert (Hsmall : length array < n -> k = 0 ∧ m = length array).
  { intros Hfew. split; [by apply Nat.div_small | by apply Nat.mod_small]. }
  clearbody k m b.
  assert (Hi : ∀ i, i < n ->
            ∃ c, ((fun i => slice b (bound k m i) (bound k m (S i)))
                    <$> seq 0 n) !! i = Some c ∧
                 length c = k + (if decide (i < m) then 1 else 0)).
  { intros i Hlt. eexists. split.
    - rewrite list_lookup_fmap, lookup_seq_lt by done. reflexivity.
    - cbv beta. rewrite length_slice.
      + destruct (decide (i < m)); lia.
      + rewrite Hb, Hlen.
        pose proof (Nat.mul_le_mono_r (S i) n k ltac:(lia)). lia. }
  eexists. split; [exact Hchunks|]. split; [exact Hi|].
  intros Hfew i c Hge Hc.
  pose proof (lookup_lt_Some _ _ _ Hc) as Hlt.
  rewrite length_fmap, length_seq in Hlt.
  destruct (Hi i Hlt) as (c' & Hc' & Hlc). rewrite Hc in Hc'.
  injection Hc' as <-.
  destruct (Hsmall Hfew) as [Hk Hm'].
  destruct (decide (i < m)); [lia|]. apply nil_length_inv. lia.
Qed.

Lemma chunk_array_concat (draws : list nat) array (n : nat) :
  n ≠ 0 ->
  ∃ chunks,
    chunk_array draws array n = Ok chunks ∧
    length chunks = n ∧
    concat chunks = shuffle draws array.
Proof.
  intros Hn.
  destruct (chunk_array_Ok draws array n Hn) as (Hchunks & Hlen & Hm).
  eexists. split; [exact Hchunks|]. split.
  - by rewrite length_fmap, length_seq.
  - rewrite (concat_slices _ (bound _ _)) by (done || (intros i; lia)).
    apply take_ge. rewrite length_shuffle. simpl. lia.
Qed.
End ChunkMore.

Section NaiveMainFacts.
Import NaiveMain.
Variable Out : Type.
Variable run_mypy : list string -> Out.

(** X16. [main] raises [ValueError] for a thread count below one, before
    anything is split, and never divides by zero; otherwise it returns one
    result for each of [num_threads] calls of [run_mypy], and the paths
    handed to these calls are together the input paths, each once. *)
Theorem main_spec (draws : list nat) (paths : list string) (num_threads : Z) :
  ((num_threads ≤ 0)%Z ->
     main Out run_mypy draws paths num_threads = Raise ValueError) ∧
  ((0 < num_threads)%Z ->
     ∃ chunks,
       main Out run_mypy draws paths num_threads = Ok (run_mypy <$> chunks) ∧
       length chunks = Z.to_nat num_threads ∧
       concat chunks ≡ₚ paths).
Proof.
  unfold main. split; intros Hn.
  - by rewrite decide_True.
  - rewrite decide_False by lia.
    destruct (chunk_array_concat draws paths (Z.to_nat num_threads))
      as (chunks & -> & Hlen & Hcat); [lia|].
    exists chunks. split; [done|]. split; [done|].
    rewrite Hcat. apply shuffle_Permutation.
Qed.

(** X17. The script itself makes a single call of [run_mypy], with all the
    paths in shuffled order. *)
Theorem script_main_single (draws : list nat) (path_dist : list string) :
  ∃ b, script_main Out run_mypy draws path_dist = Ok [run_mypy b] ∧
       b ≡ₚ path_dist.
Proof.
  unfold script_main, main. rewrite decide_False by lia.
  destruct (chunk_array_concat draws path_dist (Z.to_nat 1))
    as (chunks & -> & Hlen & Hcat); [simpl; lia|].
  destruct chunks as [|b [|? ?]]; try done.
  simpl in Hcat. rewrite app_nil_r in Hcat.
  exists b. split; [done|]. rewrite Hcat. apply shuffle_Permutation.
Qed.
End NaiveMainFacts.

(** ** Listing the source files *)

Section ListingFacts.
Import Listing.

Lemma endswith_app (a s suffix : string) :
  endswith s suffix = true -> endswith (a +:+ s) suffix = true.
Proof.
  unfold endswith. rewrite !bool_decide_eq_true, list_ascii_of_string_app.
  apply suffix_app_r.
Qed.

(** Joining keeps the last component at the end of the path. *)
Lemma path_join_app (a b : string) : ∃ x, path_join a b = x +:+ b.
Proof.
  unfold path_join. destruct (isabs b); [by exists ""|].
  destruct (decide (a = "")); [by exists ""|].
  destruct (String.prefix "/" (String.rev a)); [by exists a|].
  exists (a +:+ "/"). apply string_app_assoc.
Qed.

Lemma endswith_path_join (a b suffix : string) :
  endswith b suffix = true -> endswith (path_join a b) suffix = true.
Proof.
  intros Hb. destruct (path_join_app a b) as [x ->]. by apply endswith_app.
Qed.

(** Induction over a tree, with the hypothesis for every entry of a
    directory. *)
Lemma node_ind_nested (P : node -> Prop) :
  (∀ name, P (RegularFile name)) ->
  (∀ name entries, Forall P entries -> P (Directory name entries)) ->
  (∀ name, P (Special name)) ->
  ∀ item, P item.
Proof.
  intros Hfile Hdir Hspecial. fix IH 1. intros [name|name entries|name].
  - apply Hfile.
  - apply Hdir. induction entries as [|item entries IHentries];
      constructor; [apply IH | apply IHentries].
  - apply Hspecial.
Qed.

(** The loop inside [list_item] is [list_items]. *)
Lemma list_items_fix (base_dir : string) (entries : list node) :
  (fix go (items : list node) : list string * list string :=
     match items with
     | [] => ([], [])
     | item :: rest =>
         let '(p, c) := list_item base_dir item in
         let '(ps, cs) := go rest in
         (p ++ ps, c ++ cs)
     end) entries = list_items base_dir entries.
Proof.
  induction entries as [|item entries IH]; [done|].
  simpl. by rewrite IH.
Qed.

Lemma list_item_Directory (base_dir name : string) (entries : list node) :
  list_item base_dir (Directory name entries) =
    ((list_items (path_join base_dir name) entries).1
       ++ (list_items (path_join base_dir name) entries).2, []).
Proof.
  rewrite <- (list_items_fix (path_join base_dir name) entries). simpl.
  match goal with |- context [let '(_, _) := ?t in _] => by destruct t end.
Qed.

Lemma list_items_cons (base_dir : string) (item : node) (rest : list node) :
  list_items base_dir (item :: rest) =
    ((list_item base_dir item).1 ++ (list_items base_dir rest).1,
     (list_item base_dir item).2 ++ (list_items base_dir rest).2).
Proof.
  simpl. destruct (list_item base_dir item) as [p c].
  by destruct (list_items base_dir rest) as [ps cs].
Qed.

(** The paths of a listing are those of its items. *)
Lemma list_items_elem (base_dir : string) (items : list node) (path : string) :
  path ∈ (list_items base_dir items).1 ++ (list_items base_dir items).2 ↔
  ∃ item, item ∈ items ∧
          path ∈ (list_item base_dir item).1 ++ (list_item base_dir item).2.
Proof.
  induction items as [|item rest IH].
  - simpl. split; [by intros ?%elem_of_nil | by intros (? & ?%elem_of_nil & _)].
  - rewrite list_items_cons. simpl. rewrite elem_of_app in IH.
    rewrite !elem_of_app. setoid_rewrite elem_of_cons.
    setoid_rewrite elem_of_app. split.
    + intros [[Hp|Hps]|[Hc|Hcs]].
      * exists item. split; [by left | by left].
      * destruct (proj1 IH (or_introl Hps)) as (it & Hit & Hin).
        exists it. split; [by right | by apply elem_of_app].
      * exists item. split; [by left | by right].
      * destruct (proj1 IH (or_intror Hcs)) as (it & Hit & Hin).
        exists it. split; [by right | by apply elem_of_app].
    + intros (it & [->|Hit] & Hin).
      * destruct Hin as [Hin|Hin]; [left; by left | right; by left].
      * assert (Hrest : path ∈ (list_items base_dir rest).1
                        ∨ path ∈ (list_items base_dir rest).2).
        { apply IH. exists it. split; [done | by apply elem_of_app]. }
        destruct Hrest as [Hr|Hr]; [left; by right | right; by right].
Qed.

(** The sources below a directory, item by item. *)
Lemma python_source_items (base_dir : string) (items : list node)
    (path : string) :
  python_source base_dir items path ↔
  ∃ item, item ∈ items ∧
    ((∃ name, item = RegularFile name ∧ endswith name ".py" = true ∧
              path = path_join base_dir name) ∨
     (∃ name sub, item = Directory name sub ∧
                  python_source (path_join base_dir name) sub path)).
Proof.
  split.
  - intros [base entries name Hin Hpy|base entries name sub p Hin Hsub].
    + exists (RegularFile name). split; [done|]. left. by exists name.
    + exists (Directory name sub). split; [done|]. right. by exists name, sub.
  - intros (item & Hin & [(name & -> & Hpy & ->)|(name & sub & -> & Hsub)]).
    + by constructor.
    + by econstructor.
Qed.

Lemma list_item_sources (item : node) :
  ∀ (base_dir path : string),
    path ∈ (list_item base_dir item).1 ++ (list_item base_dir item).2 ↔
    ((∃ name, item = RegularFile name ∧ endswith name ".py" = true ∧
              path = path_join base_dir name) ∨
     (∃ name sub, item = Directory name sub ∧
                  python_source (path_join base_dir name) sub path)).
Proof.
  induction item as [name|name entries IH|name] using node_ind_nested;
    intros base_dir path.
  - simpl. destruct (endswith name ".py") eqn:Hpy; simpl.
    + rewrite list_elem_of_singleton. split.
      * intros ->. left. by exists name.
      * intros [(name' & [= <-] & _ & ->)|(? & ? & [=] & _)]. done.
    + split; [by intros ?%elem_of_nil|].
      intros [(name' & [= <-] & Hpy' & _)|(? & ? & [=] & _)]. congruence.
  - rewrite list_item_Directory. simpl. rewrite app_nil_r, list_items_elem.
    split.
    + intros (item & Hin & Hpath). right. exists name, entries.
      split; [done|]. apply python_source_items. exists item.
      split; [done|]. rewrite Forall_forall in IH. by apply IH.
    + intros [(? & [=] & _)|(name' & sub & [= <- <-] & Hsub)].
      apply python_source_items in Hsub as (item & Hin & Hsrc).
      exists item. split; [done|]. rewrite Forall_forall in IH. by apply IH.
  - simpl. split; [by intros ?%elem_of_nil|].
    by intros [(? & [=] & _)|(? & ? & [=] & _)].
Qed.

Lemma list_items_sources (base_dir : string) (items : list node)
    (path : string) :
  path ∈ (list_items base_dir items).1 ++ (list_items base_dir items).2 ↔
  python_source base_dir items path.
Proof.
  rewrite list_items_elem, python_source_items.
  split; intros (item & Hin & H); exists item; (split; [done|]);
    by apply list_item_sources.
Qed.

Lemma list_python_files_items (base_dir : string) (entries : list node) :
  list_python_files base_dir entries
    = (list_items base_dir entries).1 ++ (list_items base_dir entries).2.
Proof.
  unfold list_python_files. by destruct (list_items base_dir entries).
Qed.

(** X8. [list_python_files] returns exactly the Python sources below the
    directory: the regular files whose name ends in [.py], in the directory
    itself or under any chain of sub-directories.  Other files, entries that
    are neither file nor directory, and directories themselves (also one
    named like a source) are never returned. *)
Theorem list_python_files_spec (base_dir : string) (entries : list node)
    (path : string) :
  path ∈ list_python_files base_dir entries ↔
  python_source base_dir entries path.
Proof. rewrite list_python_files_items. apply list_items_sources. Qed.

Lemma python_source_endswith (base_dir : string) (entries : list node)
    (path : string) :
  python_source base_dir entries path -> endswith path ".py" = true.
Proof.
  induction 1 as [base entries name _ Hpy|base entries name sub path _ _ IH];
    [by apply endswith_path_join | exact IH].
Qed.

(** X9. Every path that [list_python_files] returns ends in [.py]. *)
Theorem list_python_files_endswith (base_dir : string) (entries : list node) :
  Forall (fun path => endswith path ".py" = true)
    (list_python_files base_dir entries).
Proof.
  apply Forall_forall. intros path Hin.
  rewrite list_python_files_items in Hin.
  apply list_items_sources in Hin. by eapply python_source_endswith.
Qed.
End ListingFacts.

(** ** The filesystem store, continued *)

Section FilesystemMore.
Import FilesystemMetadataStore.
Variable root : option string.

(** X20. Writes overwrite.  After two successful writes to one name, [read]
    returns the second data as text mode reads it, which is the second data
    itself when it holds no carriage return, and [getmtime] the whole
    seconds of the timestamp that the file system has kept for the second
    mtime (of the one it has stamped on the file, if the second write gave
    none). *)
Theorem fs_write_twice (e1 e2 : env) (name d1 d2 : string) (m1 m2 : option Q)
    (w w1 w2 : tree) :
  write root e1 name d1 m1 w = Ok (true, w1) ->
  write root e2 name d2 m2 w1 = Ok (true, w2) ->
  read root name w2 = Ok (universal_newlines d2) ∧
  (has_cr d2 = false -> read root name w2 = Ok d2) ∧
  getmtime root name w2 = Ok (inject_Z (py_int (stamp e2 m2))).
Proof.
  intros _ H2. apply fs_write_true in H2 as (Hrel & Hen & Hstat).
  rewrite fs_read_stat, fs_getmtime_stat by done. rewrite Hstat. simpl.
  split; [done|]. split; [|done].
  intros Hcr. by rewrite universal_newlines_id.
Qed.

(** X21. Whenever [read] returns, [getmtime] returns as well.  And after a
    [remove] that has returned, the name is without an entry for all three
    operations: [getmtime] and another [remove] raise [FileNotFoundError],
    and so does [read] for a relative name. *)
Theorem fs_entry_presence (e : env) (name : string) (w : tree) :
  (∀ data, read root name w = Ok data -> ∃ t, getmtime root name w = Ok t) ∧
  (∀ w', remove root e name w = Ok w' ->
     getmtime root name w' = Raise FileNotFoundError ∧
     (∀ e', remove root e' name w' = Raise FileNotFoundError) ∧
     (isabs name = false ->
        read root name w' = Raise FileNotFoundError)).
Proof.
  split.
  - intros data. unfold read, getmtime, check_relative.
    destruct (isabs name); [done|]. simpl.
    destruct (disabled root); [done|].
    destruct (stat w (path_join (prefix_of root) name)) as [n|x]; [|done].
    intros _. by eexists.
  - intros w' Hrm. apply fs_remove_Ok in Hrm as (Hen & Hstat & Hagain).
    split; [|split; [done|]].
    + rewrite fs_getmtime_stat by done. by rewrite Hstat.
    + intros Hrel. rewrite fs_read_stat by done. by rewrite Hstat.
Qed.

(** X22. An entry written successfully can be removed, and is then gone:
    [remove] returns, after it [read] and [getmtime] raise
    [FileNotFoundError], and a second [remove] raises it too. *)
Theorem fs_write_then_remove (e e' : env) (name data : string)
    (mtime : option Q) (w w1 : tree) :
  write root e name data mtime w = Ok (true, w1) ->
  ∃ w2,
    remove root e' name w1 = Ok w2 ∧
    read root name w2 = Raise FileNotFoundError ∧
    getmtime root name w2 = Raise FileNotFoundError ∧
    (∀ e'', remove root e'' name w2 = Raise FileNotFoundError).
Proof.
  intros Hw. apply fs_write_true in Hw as (Hrel & Hen & Hstat).
  destruct (fs_remove_stat_File root e' name w1 _ _ Hen Hstat) as [w2 Hrm].
  exists w2. split; [done|].
  apply fs_remove_Ok in Hrm as (_ & Hgone & Hagain).
  rewrite fs_read_stat, fs_getmtime_stat by done. by rewrite Hgone.
Qed.
End FilesystemMore.

(** ** The relational store, continued *)

Section SqliteMore.
Import SqliteMetadataStore.

(** X23. [list_all] yields every stored name once, and the names it yields
    are exactly those on which [read] and [getmtime] return. *)
Theorem sql_list_all_spec (db : table) :
  NoDup (list_all db) ∧
  (∀ name, name ∈ list_all db ↔ ∃ data, read name db = Ok data) ∧
  (∀ name, name ∈ list_all db ↔ ∃ t, getmtime name db = Ok t).
Proof.
  unfold list_all, read, getmtime.
  split; [apply NoDup_fst_map_to_list|].
  assert (Hin : ∀ name, name ∈ (map_to_list db).*1 ↔ is_Some (db !! name)).
  { intros name. rewrite list_elem_of_fmap. split.
    - intros ([n row] & -> & Hrow). apply elem_of_map_to_list in Hrow. by eexists.
    - intros [row Hrow]. exists (name, row). split; [done|].
      by apply elem_of_map_to_list. }
  split; intros name; rewrite Hin; destruct (db !! name) as [row|];
    (split; [intros [? [=]]; by eexists | intros [? [=]]; by eexists]).
Qed.

(** X24. [write] works on one row.  Whatever [write] returns,
    every other name reads as before, and a write that returns [False] has
    changed nothing at all; a successful write adds the name to those
    listed and takes none away. *)
Theorem sql_write_one_row (e : env) (name data : string) (mtime : option Q)
    (db db' : table) (b : bool) :
  write e name data mtime db = Ok (b, db') ->
  (∀ other, other ≠ name ->
     read other db' = read other db ∧
     getmtime other db' = getmtime other db) ∧
  (b = false -> db' = db) ∧
  (b = true -> ∀ n, n ∈ list_all db' ↔ n = name ∨ n ∈ list_all db).
Proof.
  unfold write. destruct (db_error e); [|destruct (real e _) as [kept|]];
    intros [= <- <-].
  - split; [done|]. split; [done | discriminate].
  - split; [|split; [discriminate|]].
    + intros other Hne. unfold read, getmtime.
      by rewrite lookup_insert_ne.
    + intros _ n. unfold list_all. rewrite !list_elem_of_fmap. split.
      * intros ([n' row] & -> & Hrow). apply elem_of_map_to_list in Hrow.
        simpl. destruct (decide (n' = name)) as [->|Hne]; [by left|].
        right. rewrite lookup_insert_ne in Hrow by done.
        exists (n', row). split; [done | by apply elem_of_map_to_list].
      * intros [->|([n' row] & -> & Hrow)].
        -- eexists (name, _). split; [done|].
           apply elem_of_map_to_list, lookup_insert_eq.
        -- apply elem_of_map_to_list in Hrow. simpl.
           destruct (decide (n' = name)) as [->|Hne].
           ++ eexists (name, _). split; [done|].
              apply elem_of_map_to_list, lookup_insert_eq.
           ++ exists (n', row). split; [done|].
              apply elem_of_map_to_list. by rewrite lookup_insert_ne.
  - split; [done|]. split; [done | discriminate].
Qed.

(** X25. [remove] always returns; afterwards the name is no longer listed,
    every other name reads as before, and removing again changes nothing.
    Removing a name that had no row leaves the table as it was. *)
Theorem sql_remove_spec (name : string) (db : table) :
  ∃ db',
    remove name db = Ok db' ∧
    (name ∉ list_all db') ∧
    (∀ other, other ≠ name ->
       read other db' = read other db ∧
       getmtime other db' = getmtime other db) ∧
    remove name db' = Ok db' ∧
    (name ∉ list_all db -> db' = db).
Proof.
  exists (delete name db). unfold remove. split; [done|].
  assert (Hin : ∀ (n : string) (t : table),
            n ∈ list_all t ↔ is_Some (t !! n)).
  { intros n t. unfold list_all. rewrite list_elem_of_fmap. split.
    - intros ([n' row] & -> & Hrow). apply elem_of_map_to_list in Hrow.
      by eexists.
    - intros [row Hrow]. exists (n, row). split; [done|].
      by apply elem_of_map_to_list. }
  split; [|split; [|split]].
  - rewrite Hin, lookup_delete_eq. by intros [? [=]].
  - intros other Hne. unfold read, getmtime. by rewrite lookup_delete_ne.
  - f_equal. apply delete_id, lookup_delete_eq.
  - intros Hnot. apply delete_id. rewrite Hin in Hnot.
    destruct (db !! name); [|done]. destruct Hnot. by eexists.
Qed.
End SqliteMore.

(** ** The single-pass script as a whole *)

Section PreScriptFacts.
Import Listing.
Variable getsize : string -> N.
Variable R : Type.
Variable run_pool : list (list string) -> R.

Local Abbreviation script := (PreScript.script getsize R run_pool).

Lemma list_python_files_nil (base_path : string) (entries : list node) :
  list_python_files base_path entries = [] ↔
  ¬ ∃ path, python_source base_path entries path.
Proof.
  rewrite list_python_files_items. split.
  - intros Hnil [path Hsrc]. apply list_items_sources in Hsrc.
    rewrite Hnil in Hsrc. by apply elem_of_nil in Hsrc.
  - intros Hnone. apply elem_of_nil_inv. intros path Hin.
    apply Hnone. exists path. by apply list_items_sources.
Qed.

End PreScriptFacts.

(** ** Instances of the properties above *)


Lemma accumulate_flush_sizes_witness :
  ∃ s,
    Scheduler.accumulate (fun _ => 1%N) nat Examples.run_pool
      Examples.modules Examples.node_sccs Examples.graph 2 Examples.layers
      = Ok s ∧
    length (Scheduler.result_list s) = length (Scheduler.proc_sets s) ∧
    Forall (fun paths => paths ≠ []) (Scheduler.proc_sets s).
Proof.
  destruct (Scheduler.accumulate (fun _ => 1%N) nat Examples.run_pool
              Examples.modules Examples.node_sccs Examples.graph 2
              Examples.layers) as [s|e] eqn:Hrun.
  - exists s. split; [reflexivity|].
    destruct (accumulate_flush_sizes _ _ _ _ _ _ 2 _ _ ltac:(lia) Hrun)
      as (Hlen & Hne & _).
    by split.
  - vm_compute in Hrun. discriminate Hrun.
Defined.

Lemma chunk_array_lengths_witness :
  ∃ chunks,
    Chunk.chunk_array [3; 1; 4] ["a"; "b"; "c"; "d"; "e"] 3 = Ok chunks ∧
    (∀ i, i < 3 ->
       ∃ c, chunks !! i = Some c ∧
            length c = 5 `div` 3 + (if decide (i < 5 `mod` 3) then 1 else 0)).
Proof.
  destruct (chunk_array_lengths [3; 1; 4] ["a"; "b"; "c"; "d"; "e"] 3)
    as (chunks & Hc & Hlen & _); [lia|].
  by exists chunks.
Defined.

Lemma fs_write_twice_witness :
  ∃ w1 w2,
    Fs.write (Some "cache")
      (StoreExamples.linux 1000 "0123456789abcdef" None) "m.py" "x"
      (Some 123%Q) StoreExamples.bare = Ok (true, w1) ∧
    Fs.write (Some "cache")
      (StoreExamples.linux 1001 "fedcba9876543210" None) "m.py" "y"
      (Some 456%Q) w1 = Ok (true, w2) ∧
    Fs.read (Some "cache") "m.py" w2 = Ok "y" ∧
    Fs.getmtime (Some "cache") "m.py" w2 = Ok 456%Q.
Proof.
  destruct (Fs.write (Some "cache")
              (StoreExamples.linux 1000 "0123456789abcdef" None) "m.py" "x"
              (Some 123%Q) StoreExamples.bare) as [[[] w1]|x] eqn:Hw1;
    [|vm_compute in Hw1; discriminate Hw1..].
  destruct (Fs.write (Some "cache")
              (StoreExamples.linux 1001 "fedcba9876543210" None) "m.py" "y"
              (Some 456%Q) w1) as [[[] w2]|x] eqn:Hw2;
    [|exfalso; vm_compute in Hw1; injection Hw1 as <-;
      vm_compute in Hw2; discriminate Hw2..].
  exists w1, w2. split; [reflexivity|]. split; [exact Hw2|].
  destruct (fs_write_twice (Some "cache") _ _ _ _ _ _ _ _ _ _ Hw1 Hw2)
    as (_ & Hread & Hmtime).
  split; [exact (Hread eq_refl) | exact Hmtime].
Defined.

Lemma fs_entry_presence_witness :
  Fs.remove (Some "cache") (StoreExamples.linux 1001 "" None) "m.py"
    StoreExamples.written = Ok StoreExamples.removed ∧
  Fs.getmtime (Some "cache") "m.py" StoreExamples.removed
    = Raise FileNotFoundError ∧
  Fs.read (Some "cache") "m.py" StoreExamples.removed
    = Raise FileNotFoundError.
Proof.
  assert (Hremove :
    Fs.remove (Some "cache") (StoreExamples.linux 1001 "" None) "m.py"
      StoreExamples.written = Ok StoreExamples.removed)
    by (vm_compute; reflexivity).
  destruct (fs_entry_presence (Some "cache")
              (StoreExamples.linux 1001 "" None) "m.py"
              StoreExamples.written) as [_ Hgone].
  destruct (Hgone _ Hremove) as (Hmtime & _ & Hread).
  split; [exact Hremove|]. split; [exact Hmtime | exact (Hread eq_refl)].
Defined.

Lemma fs_write_then_remove_witness :
  ∃ w2,
    Fs.write (Some "cache")
      (StoreExamples.linux 1000 "0123456789abcdef" None) "m.py" "x"
      (Some 456%Q) StoreExamples.bare = Ok (true, StoreExamples.written) ∧
    Fs.remove (Some "cache") (StoreExamples.linux 1001 "" None) "m.py"
      StoreExamples.written = Ok w2 ∧
    Fs.read (Some "cache") "m.py" w2 = Raise FileNotFoundError.
Proof.
  assert (Hwrite :
    Fs.write (Some "cache")
      (StoreExamples.linux 1000 "0123456789abcdef" None) "m.py" "x"
      (Some 456%Q) StoreExamples.bare = Ok (true, StoreExamples.written))
    by (vm_compute; reflexivity).
  destruct (fs_write_then_remove (Some "cache") _
              (StoreExamples.linux 1001 "" None) _ _ _ _ _ Hwrite)
    as (w2 & Hrm & Hread & _).
  exists w2. split; [exact Hwrite|]. split; [exact Hrm | exact Hread].
Defined.

Lemma sql_write_one_row_witness :
  ∃ db',
    Sql.write (StoreExamples.postgres 1000) "m.py" "x" (Some 123%Q)
      (<[ "n.py" := (456%Q, "y") ]> ∅) = Ok (true, db') ∧
    Sql.read "n.py" db' = Ok "y".
Proof.
  eexists. split; [reflexivity|].
  destruct (sql_write_one_row (StoreExamples.postgres 1000) "m.py" "x"
              (Some 123%Q)
              (<[ "n.py" := (456%Q, "y") ]> ∅) _ true eq_refl)
    as (Hother & _).
  destruct (Hother "n.py") as [Hread _]; [discriminate|].
  rewrite Hread. reflexivity.
Defined.

